(** * antennagen: the credential-rotation loop of [image_generator.py]

    A shallow embedding of [src/image_generator.py] and the properties of
    its rotation, back-off and checkpoint logic.

    Modelling conventions.
    - Python [int]s that only count upwards from a literal (images, errors,
      requests, delays, list positions) are [nat].
    - Python [str] is [string]; [str.lower()] is modelled on the ASCII
      letters, the only ones the keyword list is made of.
    - The external world (the generation API, the image decoder, the output
      directory) is an explicit, finite script of outcomes handed to the
      functions; when the script ends while the loop still wants to call,
      the run is [Interrupted] (the observation stops there).
    - [time.sleep] and the checkpoint writes are recorded as events, in
      program order.
    - What a log line says is not modelled. A [log_message] call, a
      checkpoint write or a directory listing that raises inside the [try]
      block of [main] is: the exception reaches the [except] clause, as any
      other does. The calls of [main] outside that block (the log lines of
      lines 174 and 208) are taken to return. *)

From Stdlib Require Import Ascii String List Arith Lia.
From stdpp Require Import base decidable option list sorting strings pretty gmap fin_maps.

(** ** Strings: [str.lower()] and the [in] operator *)

Module Str.

(** [c.lower()] for one ASCII character: [A]..[Z] (65..90) move by 32. *)
Definition lower_ascii (c : ascii) : ascii :=
  let n := nat_of_ascii c in
  if (65 <=? n) && (n <=? 90) then ascii_of_nat (n + 32) else c.

(** [s.lower()]. *)
Fixpoint lower (s : string) : string :=
  match s with
  | EmptyString => EmptyString
  | String c s' => String (lower_ascii c) (lower s')
  end.

(** [s.startswith(kw)]. *)
Fixpoint starts_with (kw s : string) : bool :=
  match kw, s with
  | EmptyString, _ => true
  | String a kw', String b s' => if ascii_dec a b then starts_with kw' s' else false
  | String _ _, EmptyString => false
  end.

(** [kw in s]: [kw] occurs in [s] at some offset. *)
Fixpoint contains (kw s : string) : bool :=
  starts_with kw s ||
  match s with
  | EmptyString => false
  | String _ s' => contains kw s'
  end.

(** The meaning of [in] on strings, stated without an algorithm. *)
Definition occurs_in (kw s : string) : Prop :=
  exists pre post : string, s = pre +:+ kw +:+ post.

End Str.

(** ** Failure classification (lines 62-69 and 122-131) *)

(** The literal keyword list that both [test_api_key] and
    [generate_with_key] scan for. *)
Definition quota_keywords : list string :=
  ["quota"; "limit"; "rate"; "exceeded"; "429"].

(** [any(keyword in error_msg for keyword in [...])] with
    [error_msg = str(e).lower()]. *)
Definition is_quota_error (e : string) : bool :=
  let error_msg := Str.lower e in
  existsb (fun keyword => Str.contains keyword error_msg) quota_keywords.

Inductive failure_kind : Set :=
| QuotaExhausted
| Transient.

Definition classify (e : string) : failure_kind :=
  if is_quota_error e then QuotaExhausted else Transient.

(** [test_api_key]: the probe call either returns ([None]) or raises with
    a message. *)
Definition test_api_key (probe : option string) : bool :=
  match probe with
  | None => true
  | Some e => if is_quota_error e then false else true
  end.

(** ** [generate_with_key] (lines 71-142) *)

(** One element of [resp.candidates[0].content.parts], as the [for] loop of
    lines 102-115 sees it. *)
Inductive part : Type :=
| PartText (text : string)   (* [part.text is not None]: logged only *)
| PartImage                  (* [inline_data] present and the image is saved *)
| PartRaises (e : string)    (* reading the parts, listing the output
                                directory, decoding or saving raises [e] *)
| PartEmpty.                 (* neither text nor inline data *)

(** What one [client.models.generate_content] call does. *)
Inductive call_outcome : Type :=
| CallRaises (e : string)
| CallReturns (parts : list part).

(** The two [time.sleep] calls of the loop: line 87 and line 139. *)
Inductive delay : Set :=
| Pace (seconds : nat)
| Penalty (seconds : nat).

(** The locals of [generate_with_key], and the sleeps made so far. *)
Record gen_state : Type := GenState {
  images_generated : nat;
  consecutive_errors : nat;
  sleep_time : nat;
  requests_made : nat;
  sleeps : list delay
}.

(** Lines 73-76. *)
Definition gen_init : gen_state :=
  {| images_generated := 0; consecutive_errors := 0; sleep_time := 8;
     requests_made := 0; sleeps := [] |}.

(** Why the [while] loop was left. The Python function returns only the
    count; the reason is kept to state properties about it. *)
Inductive exit_reason : Set :=
| ExitCeiling    (* the loop condition became false *)
| ExitQuota      (* [break] of line 131 *)
| ExitFailures.  (* [break] of line 136 *)

(** Lines 83-85: the progressive sleep, checked at the top of every
    iteration. *)
Definition progressive_sleep (st : gen_state) : gen_state :=
  if (0 <? requests_made st) && (requests_made st mod 15 =? 0)
  then {| images_generated := images_generated st;
          consecutive_errors := consecutive_errors st;
          sleep_time := sleep_time st + 7;
          requests_made := requests_made st;
          sleeps := sleeps st |}
  else st.

(** [time.sleep(d)]. *)
Definition do_sleep (d : delay) (st : gen_state) : gen_state :=
  {| images_generated := images_generated st;
     consecutive_errors := consecutive_errors st;
     sleep_time := sleep_time st;
     requests_made := requests_made st;
     sleeps := sleeps st ++ [d] |}.

(** Lines 101-115: the [for] loop over the parts. It returns the new
    [images_generated], [image_saved], and the exception that cut the loop
    short, if any. An image part raises, when it does, before
    [images_generated += 1]. *)
Fixpoint process_parts (parts : list part) (images : nat) (image_saved : bool)
  : nat * bool * option string :=
  match parts with
  | [] => (images, image_saved, None)
  | PartText _ :: rest => process_parts rest images image_saved
  | PartImage :: rest => process_parts rest (S images) true
  | PartRaises e :: _ => (images, image_saved, Some e)
  | PartEmpty :: rest => process_parts rest images image_saved
  end.

(** Lines 122-139: the [except] clause. [Some why] is a [break]. *)
Definition on_exception (st : gen_state) (e : string)
  : gen_state * option exit_reason :=
  let st1 := {| images_generated := images_generated st;
                consecutive_errors := S (consecutive_errors st);
                sleep_time := sleep_time st;
                requests_made := requests_made st;
                sleeps := sleeps st |} in
  if is_quota_error e then (st1, Some ExitQuota)
  else if 5 <=? consecutive_errors st1 then (st1, Some ExitFailures)
  else (do_sleep (Penalty (Nat.min 60 (sleep_time st1 * 2))) st1, None).

(** Lines 81-139: one pass through the body of the [while] loop. *)
Definition iteration (st : gen_state) (o : call_outcome)
  : gen_state * option exit_reason :=
  let st1 := progressive_sleep st in
  let st2 := do_sleep (Pace (sleep_time st1)) st1 in
  match o with
  | CallRaises e => on_exception st2 e
  | CallReturns parts =>
      let '(images, image_saved, raised) :=
        process_parts parts (images_generated st2) false in
      let st3 := {| images_generated := images;
                    consecutive_errors := consecutive_errors st2;
                    sleep_time := sleep_time st2;
                    requests_made := S (requests_made st2);
                    sleeps := sleeps st2 |} in
      match raised with
      | Some e => on_exception st3 e
      | None =>
          if image_saved
          then ({| images_generated := images_generated st3;
                   consecutive_errors := 0;
                   sleep_time := sleep_time st3;
                   requests_made := requests_made st3;
                   sleeps := sleeps st3 |}, None)
          else (st3, None)
      end
  end.

(** How a run of the loop ends: it was left ([Finished]), or the script of
    outcomes stopped before it was. *)
Inductive run_result : Type :=
| Finished (st : gen_state) (why : exit_reason)
| Interrupted (st : gen_state).

(** Lines 80-140: the [while images_generated < max_images_per_key] loop,
    driven by the outcomes of the successive API calls. *)
Fixpoint run_loop (max_images_per_key : nat) (st : gen_state)
    (outcomes : list call_outcome) : run_result :=
  if images_generated st <? max_images_per_key then
    match outcomes with
    | [] => Interrupted st
    | o :: rest =>
        match iteration st o with
        | (st', Some why) => Finished st' why
        | (st', None) => run_loop max_images_per_key st' rest
        end
    end
  else Finished st ExitCeiling.

(** [generate_with_key(client, key_name, contents, output_dir, start_index,
    max_images_per_key)]; the value returned to [main] is
    [images_generated] of the final state. *)
Definition generate_with_key_upto (max_images_per_key : nat)
    (outcomes : list call_outcome) : run_result :=
  run_loop max_images_per_key gen_init outcomes.

(** The call as [main] makes it: the default ceiling of 500. *)
Definition generate_with_key (outcomes : list call_outcome) : run_result :=
  generate_with_key_upto 500 outcomes.

(** ** The checkpoint: [save_progress] and [load_progress] (lines 21-48) *)

(** The [progress] dictionary. The [last_updated] time stamp that
    [save_progress] adds is read by nothing and is left out. *)
Record progress : Type := Progress {
  current_key_index : nat;
  total_images_generated : nat;
  images_per_key : gmap string nat;
  exhausted_keys : list string
}.

(** Lines 43-48. *)
Definition default_progress : progress :=
  {| current_key_index := 0; total_images_generated := 0;
     images_per_key := ∅; exhausted_keys := [] |}.

(** [load_progress]: [None] stands for a missing or unreadable
    [progress.json]. *)
Definition load_progress (file : option progress) : progress :=
  match file with
  | Some p => p
  | None => default_progress
  end.

(** The dictionary [save_progress] dumps to [progress.json]. *)
Definition save_progress (key_index total_images : nat)
    (key_images : gmap string nat) (exhausted : list string) : progress :=
  {| current_key_index := key_index; total_images_generated := total_images;
     images_per_key := key_images; exhausted_keys := exhausted |}.

(** [sum(images_per_key.values())]. *)
Definition sum_counts (m : gmap string nat) : nat :=
  map_fold (fun _ n acc => n + acc) 0 m.

(** ** [main] (lines 144-216) *)

(** [f"key_{i+1}"]. *)
Definition key_name (i : nat) : string := "key_" +:+ pretty (i + 1).

(** What the outside world does for the credential at one position, in the
    order in which the [try] block of lines 177-205 meets it. Each
    [option string] is an exception raised at that point, if any. *)
Record key_behaviour : Type := KeyBehaviour {
  client_error : option string;     (* [genai.Client(api_key=key)], line 179 *)
  probe_error : option string;      (* the probe call of lines 54-60 *)
  probe_log_error : option string;  (* [log_message] of line 68 *)
  calls : list call_outcome;        (* the production calls *)
  run_error : option string;        (* an exception that leaves
                                       [generate_with_key]: a [log_message]
                                       call outside its [try] or inside its
                                       [except] clause, or the sleep of
                                       line 139 *)
  save_error : option string;       (* [save_progress], line 200 *)
  listing_error : option string     (* [os.listdir] and [log_message],
                                       lines 204-205 *)
}.

(** What [main] does that can be observed, in program order. *)
Inductive main_event : Type :=
| EvSkip (i : nat)                            (* line 175 *)
| EvProbe (i : nat) (usable : bool)           (* line 182 *)
| EvRun (i : nat) (n : nat) (why : exit_reason)  (* lines 188-190 *)
| EvSave (checkpoint : progress)              (* lines 200-201 *)
| EvFatal (i : nat)                           (* lines 207-210 *)
| EvInterrupted (i : nat).

(** The in-memory [progress] dictionary and the events so far. *)
Record main_state : Type := MainState {
  prog : progress;
  events : list main_event
}.

Definition emit (e : main_event) (st : main_state) : main_state :=
  {| prog := prog st; events := events st ++ [e] |}.

(** [progress["exhausted_keys"].append(key)]. *)
Definition mark_exhausted (key : string) (st : main_state) : main_state :=
  {| prog := {| current_key_index := current_key_index (prog st);
                total_images_generated := total_images_generated (prog st);
                images_per_key := images_per_key (prog st);
                exhausted_keys := exhausted_keys (prog st) ++ [key] |};
     events := events st |}.

(** The checkpoints written, oldest first. *)
Fixpoint writes_of (es : list main_event) : list progress :=
  match es with
  | [] => []
  | EvSave cp :: rest => cp :: writes_of rest
  | _ :: rest => writes_of rest
  end.

Definition writes (st : main_state) : list progress := writes_of (events st).

(** How one pass through the [for] body ends: the loop goes on, or the
    process stopped inside it. *)
Inductive body_result : Type :=
| Next (st : main_state)
| Halt (st : main_state).

(** Lines 193-195: the position, the total and the count of the run. The
    count replaces whatever the identifier held. On a dictionary that has
    the four entries [load_progress] returns, these assignments do not
    raise. *)
Definition store_run (i n : nat) (p : progress) : progress :=
  {| current_key_index := i;
     total_images_generated := total_images_generated p + n;
     images_per_key := <[key_name i := n]> (images_per_key p);
     exhausted_keys := exhausted_keys p |}.

(** Lines 192-198: the update after [generate_with_key] returned [n]. *)
Definition update_progress (i : nat) (key : string) (n : nat)
    (st : main_state) : main_state :=
  let st1 := {| prog := store_run i n (prog st); events := events st |} in
  if n <? 50 then mark_exhausted key st1 else st1.

(** Lines 200-201: the checkpoint write, when it succeeds. *)
Definition write_checkpoint (i : nat) (st : main_state) : main_state :=
  emit (EvSave (save_progress i (total_images_generated (prog st))
                  (images_per_key (prog st)) (exhausted_keys (prog st)))) st.

(** The exception that leaves [test_api_key], if any: the log call of
    line 68, which is reached only after a probe error that is not a quota
    error. *)
Definition probe_escape (b : key_behaviour) : option string :=
  match probe_error b with
  | Some e => if is_quota_error e then None else probe_log_error b
  | None => None
  end.

(** How the [try] block ends: it ran to its end or to its [continue], an
    exception left it, or the observation stopped inside
    [generate_with_key]. *)
Inductive try_result : Type :=
| Completed (st : main_state)
| Raised (st : main_state) (e : string)
| Cut (st : main_state).

(** Lines 177-205: the [try] block, for a credential that was not
    skipped. When the log call of line 183 raises, the [except] clause
    makes the append that line 184 would have made; the two ways to the
    same state are not told apart. *)
Definition try_block (env : nat -> key_behaviour) (i : nat) (key : string)
    (st : main_state) : try_result :=
  match client_error (env i) with
  | Some e => Raised st e
  | None =>
      match probe_escape (env i) with
      | Some e => Raised st e
      | None =>
          if test_api_key (probe_error (env i)) then
            let st := emit (EvProbe i true) st in
            match run_error (env i) with
            | Some e => Raised st e
            | None =>
                match generate_with_key (calls (env i)) with
                | Interrupted _ => Cut (emit (EvInterrupted i) st)
                | Finished g why =>
                    let n := images_generated g in
                    let st := update_progress i key n (emit (EvRun i n why) st) in
                    match save_error (env i) with
                    | Some e => Raised st e
                    | None =>
                        let st := write_checkpoint i st in
                        match listing_error (env i) with
                        | Some e => Raised st e
                        | None => Completed st
                        end
                    end
                end
            end
          else Completed (emit (EvProbe i false) (mark_exhausted key st))
      end
  end.

(** Lines 207-210: the [except] clause appends the key; the loop then
    goes on. *)
Definition except_clause (i : nat) (key : string) (st : main_state)
  : main_state :=
  emit (EvFatal i) (mark_exhausted key st).

(** Lines 177-210: the [try] block and its [except] clause. *)
Definition attempt_key (env : nat -> key_behaviour) (i : nat) (key : string)
    (st : main_state) : body_result :=
  match try_block env i key st with
  | Completed st' => Next st'
  | Raised st' _ => Next (except_clause i key st')
  | Cut st' => Halt st'
  end.

(** Lines 169-210: the body of [for i in range(...)]. *)
Definition body (all_keys : list string) (env : nat -> key_behaviour)
    (i : nat) (st : main_state) : body_result :=
  match all_keys !! i with
  | None => Next st   (* not reached: [i < len(all_keys)] *)
  | Some key =>
      if bool_decide (key ∈ exhausted_keys (prog st))
      then Next (emit (EvSkip i) st)
      else attempt_key env i key st
  end.

(** The [for] loop over a list of positions. *)
Fixpoint for_keys (all_keys : list string) (env : nat -> key_behaviour)
    (positions : list nat) (st : main_state) : main_state :=
  match positions with
  | [] => st
  | i :: rest =>
      match body all_keys env i st with
      | Next st' => for_keys all_keys env rest st'
      | Halt st' => st'
      end
  end.

(** [range(start, stop)]. *)
Definition range (start stop : nat) : list nat := seq start (stop - start).

(** [main], for the credentials [all_keys] of [GEN_KEYS] and the content
    [file] of [progress.json] at start-up. *)
Definition main (all_keys : list string) (env : nat -> key_behaviour)
    (file : option progress) : main_state :=
  let progress := load_progress file in
  for_keys all_keys env
    (range (current_key_index progress) (length all_keys))
    {| prog := progress; events := [] |}.

(** * Vocabulary of the properties

    Observations on runs, the specification's own wording of two
    formulas, the invariants, and the concrete scenarios the properties
    are evaluated on. *)

(** The classifier as the specification words it: the markers are
    quota, rate, limit, throttle and 429. *)
Definition spec_markers : list string :=
  ["quota"; "rate"; "limit"; "throttle"; "429"].

Definition spec_classify (e : string) : failure_kind :=
  if existsb (fun marker => Str.contains marker (Str.lower e)) spec_markers
  then QuotaExhausted else Transient.

(** The final (or last observed) state of a run. *)
Definition final_state (r : run_result) : gen_state :=
  match r with
  | Finished st _ => st
  | Interrupted st => st
  end.

(** The exception one call ends in, if any: raised by the call itself or
    while its response is processed. *)
Definition raised (o : call_outcome) : option string :=
  match o with
  | CallRaises e => Some e
  | CallReturns parts => (process_parts parts 0 false).2
  end.

(** The extra delay after a failure as the specification words it: the
    larger of twice the base delay and the cap of 60. *)
Definition spec_penalty (base : nat) : nat := Nat.max (base * 2) 60.

(** The base delay as the specification words it: raised by 7 after every
    15 requests made, whatever their outcome. *)
Definition spec_base_delay (requests : nat) : nat := 8 + 7 * (requests / 15).

(** The base delay slept before the call made when [k] calls have
    returned a response. *)
Definition pace_after (k : nat) : nat := 8 + 7 * (k / 15).

(** What holds between the base delay and the request count as long as
    every call has returned cleanly. *)
Definition paced (st : gen_state) : Prop :=
  sleep_time st = pace_after (pred (requests_made st)) /\
  sleeps st = map (fun k => Pace (pace_after k)) (seq 0 (requests_made st)).

(** A response carrying one image. *)
Definition one_image : call_outcome := CallReturns [PartImage].

(** The number of images a response yields when nothing raises. *)
Fixpoint images_in (parts : list part) : nat :=
  match parts with
  | [] => 0
  | PartImage :: rest => S (images_in rest)
  | _ :: rest => images_in rest
  end.

Definition images_of (o : call_outcome) : nat :=
  match o with
  | CallRaises _ => 0
  | CallReturns parts => images_in parts
  end.

(** The state a pass through the [for] body leaves. *)
Definition state_of (r : body_result) : main_state :=
  match r with
  | Next st => st
  | Halt st => st
  end.

(** The dictionary after [progress["exhausted_keys"].append(key)]. *)
Definition append_key (key : string) (p : progress) : progress :=
  {| current_key_index := current_key_index p;
     total_images_generated := total_images_generated p;
     images_per_key := images_per_key p;
     exhausted_keys := exhausted_keys p ++ [key] |}.

(** The state once a run of position [i] has returned [n] and the
    dictionary has been updated (lines 182-198). *)
Definition ran (i : nat) (key : string) (n : nat) (why : exit_reason)
    (st : main_state) : main_state :=
  update_progress i key n (emit (EvRun i n why) (emit (EvProbe i true) st)).

(** Whether something raises between the update and the end of the [try]
    block (lines 200-205). *)
Definition raises_after_run (b : key_behaviour) : bool :=
  match save_error b, listing_error b with
  | None, None => false
  | _, _ => true
  end.

(** Every way a pass through the body can end. *)
Inductive body_case (all_keys : list string) (i : nat) (st : main_state)
  : main_state -> Prop :=
| CaseOutOfRange :
    all_keys !! i = None -> body_case all_keys i st st
| CaseSkip key :
    all_keys !! i = Some key -> key ∈ exhausted_keys (prog st) ->
    body_case all_keys i st (emit (EvSkip i) st)
| CaseFatal key :
    all_keys !! i = Some key -> key ∉ exhausted_keys (prog st) ->
    body_case all_keys i st (except_clause i key st)
| CaseProbeFalse key :
    all_keys !! i = Some key -> key ∉ exhausted_keys (prog st) ->
    body_case all_keys i st (emit (EvProbe i false) (mark_exhausted key st))
| CaseRunRaised key :
    all_keys !! i = Some key -> key ∉ exhausted_keys (prog st) ->
    body_case all_keys i st (except_clause i key (emit (EvProbe i true) st))
| CaseInterrupted key :
    all_keys !! i = Some key -> key ∉ exhausted_keys (prog st) ->
    body_case all_keys i st (emit (EvInterrupted i) (emit (EvProbe i true) st))
| CaseRun key n why :
    all_keys !! i = Some key -> key ∉ exhausted_keys (prog st) ->
    body_case all_keys i st (write_checkpoint i (ran i key n why st))
| CaseSaveRaised key n why :
    all_keys !! i = Some key -> key ∉ exhausted_keys (prog st) ->
    body_case all_keys i st (except_clause i key (ran i key n why st))
| CaseListingRaised key n why :
    all_keys !! i = Some key -> key ∉ exhausted_keys (prog st) ->
    body_case all_keys i st
      (except_clause i key (write_checkpoint i (ran i key n why st))).

(** A credential with an unremarkable secret that yields [n] single-image
    responses and then fails with a quota error. *)
Definition quota_after (n : nat) : key_behaviour :=
  {| client_error := None; probe_error := None; probe_log_error := None;
     calls := repeat one_image n ++ [CallRaises "429 RESOURCE_EXHAUSTED: quota"];
     run_error := None; save_error := None; listing_error := None |}.

(** The same credential when the checkpoint cannot be written. *)
Definition quota_after_unsaved (n : nat) : key_behaviour :=
  {| client_error := None; probe_error := None; probe_log_error := None;
     calls := repeat one_image n ++ [CallRaises "429 RESOURCE_EXHAUSTED: quota"];
     run_error := None; save_error := Some "No space left on device";
     listing_error := None |}.

Definition fresh_state : main_state :=
  {| prog := default_progress; events := [] |}.

(** Two credentials: the first yields 50 images before its quota error,
    the second none. *)
Definition fifty_then_none (i : nat) : key_behaviour :=
  if i =? 0 then quota_after 50 else quota_after 0.

(** A credential whose client cannot be created. *)
Definition misconfigured : key_behaviour :=
  {| client_error := Some "invalid configuration";
     probe_error := None; probe_log_error := None; calls := [];
     run_error := None; save_error := None; listing_error := None |}.

Definition bad_then_good (i : nat) : key_behaviour :=
  if i =? 0 then misconfigured else quota_after 0.

(** A credential whose probe is answered with a quota error. *)
Definition depleted : key_behaviour :=
  {| client_error := None;
     probe_error := Some "429 Too Many Requests"; probe_log_error := None;
     calls := []; run_error := None; save_error := None;
     listing_error := None |}.

Definition dead_then_good (i : nat) : key_behaviour :=
  if i =? 0 then depleted else quota_after 0.

(** The identifiers and secrets a dictionary may hold, relative to the
    dictionary [p0] the process started from. *)
Definition names_within (all_keys : list string) (p0 p : progress) : Prop :=
  (forall k, is_Some (images_per_key p !! k) ->
     is_Some (images_per_key p0 !! k) \/
     exists i, i < length all_keys /\ k = key_name i) /\
  (forall s, s ∈ exhausted_keys p ->
     s ∈ exhausted_keys p0 \/ s ∈ all_keys).

(** A checkpoint with one count of zero and the secret in its exhausted
    list. *)
Definition leaked_checkpoint : progress :=
  {| current_key_index := 0; total_images_generated := 0;
     images_per_key := {[ "key_1" := 0 ]};
     exhausted_keys := ["AIzaSy-secret-value"] |}.

(** The counts add up to the total, and no identifier from position [a]
    on has a count yet. *)
Definition consistent_from (a : nat) (p : progress) : Prop :=
  sum_counts (images_per_key p) = total_images_generated p /\
  forall j, a <= j -> images_per_key p !! key_name j = None.

(** The state in which [main] enters its loop when [progress.json] holds
    [cp]. *)
Definition restarted (cp : progress) : main_state :=
  {| prog := cp; events := [] |}.

(** The state in which a run of sixty single images ends on a quota
    error. *)
Definition after_sixty_images : gen_state :=
  final_state (generate_with_key (calls (quota_after 60))).

(** ** Vocabulary of the further properties *)

(** Whether an event shows work on the credential at position [i]: a
    probe, a run, a fatal error, an interruption, or a checkpoint written
    for it. A skip is not work. *)
Definition touches (i : nat) (e : main_event) : bool :=
  match e with
  | EvSkip _ => false
  | EvProbe j _ => j =? i
  | EvRun j _ _ => j =? i
  | EvSave cp => current_key_index cp =? i
  | EvFatal j => j =? i
  | EvInterrupted j => j =? i
  end.

(** The images of all the runs recorded in a list of events. *)
Fixpoint run_total (es : list main_event) : nat :=
  match es with
  | [] => 0
  | EvRun _ n _ :: rest => n + run_total rest
  | _ :: rest => run_total rest
  end.

(** The base delays slept (line 87), in order. *)
Fixpoint paces (ds : list delay) : list nat :=
  match ds with
  | [] => []
  | Pace s :: rest => s :: paces rest
  | Penalty _ :: rest => paces rest
  end.

(** The range each kind of sleep stays in. *)
Definition delay_in_bounds (d : delay) : Prop :=
  match d with
  | Pace s => 8 <= s
  | Penalty s => 16 <= s <= 60
  end.

(** The sleeps of a run that fails five times in a row from the start. *)
Definition five_failures_sleeps : list delay :=
  [Pace 8; Penalty 16; Pace 8; Penalty 16; Pace 8; Penalty 16;
   Pace 8; Penalty 16; Pace 8].

(** A call that yields no image and, if it fails, fails with an error
    that is not a quota error. *)
Definition barren (o : call_outcome) : Prop :=
  images_of o = 0 /\ forall e, raised o = Some e -> is_quota_error e = false.

(** The number of calls of a script that end in an exception. *)
Fixpoint raises_in (outcomes : list call_outcome) : nat :=
  match outcomes with
  | [] => 0
  | o :: rest =>
      match raised o with
      | Some _ => S (raises_in rest)
      | None => raises_in rest
      end
  end.

(** * [object_detection.py]: the tally of [main] (lines 160-189)

    [process_image] catches every exception and returns a dictionary
    whose [status] is either [success], with the number of detections, or
    [error], with a message and zero detections. The detector, the image
    files and the floating-point coordinates are outside this model, and
    so is the [success_rate] quotient of the summary. *)

Module Detection.

(** What [process_image] returns, as far as [main] reads it. *)
Inductive result : Type :=
| Success (detections : nat)
| Error (error : string).

Definition status_is_success (r : result) : bool :=
  match r with
  | Success _ => true
  | Error _ => false
  end.

(** [result["detections"]]: the error dictionaries carry 0. *)
Definition result_detections (r : result) : nat :=
  match r with
  | Success n => n
  | Error _ => 0
  end.

(** The [file_info] dictionary of lines 170-177. *)
Record file_info : Type := FileInfo {
  filename : string;
  status : bool;             (* [true] for [success], [false] for [error] *)
  detections : nat;
  error : option string
}.

(** The three accumulators of the loop. *)
Record tally : Type := Tally {
  processed_files : list file_info;
  total_detections : nat;
  errors : list string
}.

(** Lines 161-163. *)
Definition tally_init : tally :=
  {| processed_files := []; total_detections := 0; errors := [] |}.

(** Lines 165-182: one pass through the loop body, for the file [name]
    on which [process_image] returned [r]. *)
Definition tally_step (t : tally) (file : string * result) : tally :=
  let '(name, r) := file in
  match r with
  | Error msg =>
      {| processed_files := processed_files t ++
           [{| filename := name; status := false; detections := 0;
               error := Some msg |}];
         total_detections := total_detections t;
         errors := errors t ++ [msg] |}
  | Success n =>
      {| processed_files := processed_files t ++
           [{| filename := name; status := true; detections := n;
               error := None |}];
         total_detections := total_detections t + n;
         errors := errors t |}
  end.

(** The loop over [image_files]. *)
Definition tally_all (files : list (string * result)) : tally :=
  fold_left tally_step files tally_init.

(** Line 27: [sum(1 for f in processed_files if f["detections"] > 0)]. *)
Definition files_with_detections (fs : list file_info) : nat :=
  length (filter (fun f => 0 < detections f) fs).

(** Lines 192-193. *)
Definition successful_files (fs : list file_info) : nat :=
  length (filter (fun f => status f = true) fs).

Definition failed_files (fs : list file_info) : nat :=
  length (filter (fun f => status f = false) fs).

End Detection.

(** * Properties *)

(** ** Strings *)

Section StringFacts.

Implicit Types (kw s pre post : string).

Lemma starts_with_app kw post : Str.starts_with kw (kw +:+ post) = true.
Proof.
  induction kw as [|a kw IH]; simpl; [done|].
  destruct (ascii_dec a a); [exact IH | congruence].
Qed.

Lemma starts_with_inv kw s :
  Str.starts_with kw s = true -> exists post, s = kw +:+ post.
Proof.
  revert s; induction kw as [|a kw IH]; intros s H; simpl in *.
  - by exists s.
  - destruct s as [|b s]; [discriminate|].
    destruct (ascii_dec a b) as [->|]; [|discriminate].
    destruct (IH _ H) as [post ->]. by exists post.
Qed.

Lemma contains_starts_with kw s :
  Str.starts_with kw s = true -> Str.contains kw s = true.
Proof. intros H. destruct s; simpl; rewrite H; done. Qed.

Lemma contains_occurs kw s : Str.contains kw s = true <-> Str.occurs_in kw s.
Proof.
  split.
  - induction s as [|b s IH]; simpl; intros H.
    + rewrite orb_false_r in H. apply starts_with_inv in H as [post ->].
      by exists EmptyString, post.
    + apply orb_true_iff in H as [H|H].
      * apply starts_with_inv in H as [post Hs]. by exists EmptyString, post.
      * destruct (IH H) as (pre & post & ->). by exists (String b pre), post.
  - intros (pre & post & ->).
    induction pre as [|b pre IH].
    + exact (contains_starts_with _ _ (starts_with_app kw post)).
    + change (Str.contains kw (String b (pre +:+ kw +:+ post)) = true).
      simpl. rewrite IH. apply orb_true_r.
Qed.

Lemma lower_app s1 s2 : Str.lower (s1 +:+ s2) = Str.lower s1 +:+ Str.lower s2.
Proof. induction s1 as [|c s1 IH]; simpl; [done | by rewrite IH]. Qed.

End StringFacts.

(** ** Classification *)

Lemma is_quota_error_iff e :
  is_quota_error e = true <->
  exists kw, kw ∈ quota_keywords /\ Str.occurs_in kw (Str.lower e).
Proof.
  unfold is_quota_error. rewrite existsb_exists. split.
  - intros (kw & Hin & Hc). exists kw. split.
    + by apply list_elem_of_In.
    + by apply contains_occurs.
  - intros (kw & Hin & Hc). exists kw. split.
    + by apply list_elem_of_In.
    + by apply contains_occurs.
Qed.

(** C6, as the code has it. An error is classified [QuotaExhausted]
    exactly when its lower-cased text contains one of the five keywords
    quota, limit, rate, exceeded, 429, and [Transient] otherwise; a keyword
    written in any letter case is found. The word throttle is not among
    the keywords, and exceeded is. *)
Theorem classify_by_keywords (e : string) :
  (classify e = QuotaExhausted <->
     exists kw, kw ∈ quota_keywords /\ Str.occurs_in kw (Str.lower e)) /\
  (classify e = Transient <->
     ~ exists kw, kw ∈ quota_keywords /\ Str.occurs_in kw (Str.lower e)) /\
  (forall kw m, kw ∈ quota_keywords -> Str.lower m = kw ->
     Str.occurs_in m e -> classify e = QuotaExhausted) /\
  (forall e', Str.lower e' = Str.lower e -> classify e' = classify e).
Proof.
  pose proof (is_quota_error_iff e) as Hq.
  unfold classify. repeat split.
  - destruct (is_quota_error e); [intros _; by apply Hq | discriminate].
  - intros H. apply Hq in H. by rewrite H.
  - destruct (is_quota_error e); [discriminate|].
    intros _ H. apply Hq in H. discriminate.
  - intros H. destruct (is_quota_error e); [|done].
    exfalso. apply H. by apply Hq.
  - intros kw m Hin Hm (pre & post & ->).
    assert (is_quota_error (pre +:+ m +:+ post) = true) as ->; [|done].
    apply is_quota_error_iff. exists kw. split; [done|].
    exists (Str.lower pre), (Str.lower post).
    by rewrite !lower_app, Hm.
  - intros e' He. unfold is_quota_error. by rewrite He.
Qed.

(** C6, as stated, fails: a throttling error carries a marker of the
    specification's list and is classified [Transient] by the code, and an
    error that only says exceeded carries none and is classified
    [QuotaExhausted]. *)
Lemma classify_throttle_counterexample :
  spec_classify "Request THROTTLED by server" = QuotaExhausted /\
  classify "Request THROTTLED by server" = Transient /\
  spec_classify "deadline exceeded" = Transient /\
  classify "deadline exceeded" = QuotaExhausted.
Proof. vm_compute. auto. Qed.

(** ** The production loop: back-off *)

Lemma process_parts_raised parts n b :
  (process_parts parts n b).2 = (process_parts parts 0 false).2.
Proof.
  revert n b. induction parts as [|p parts IH]; intros n b; [done|].
  destruct p; simpl; auto.
  - rewrite (IH (S n) true). symmetry. apply (IH 1 true).
Qed.

Lemma progressive_sleep_fields st :
  images_generated (progressive_sleep st) = images_generated st /\
  consecutive_errors (progressive_sleep st) = consecutive_errors st /\
  requests_made (progressive_sleep st) = requests_made st /\
  sleeps (progressive_sleep st) = sleeps st.
Proof. unfold progressive_sleep. by destruct (_ && _). Qed.

(** The [except] clause, case by case. *)
Lemma on_exception_cases st e :
  match classify e with
  | QuotaExhausted =>
      on_exception st e =
      ({| images_generated := images_generated st;
          consecutive_errors := S (consecutive_errors st);
          sleep_time := sleep_time st;
          requests_made := requests_made st;
          sleeps := sleeps st |}, Some ExitQuota)
  | Transient =>
      if 5 <=? S (consecutive_errors st)
      then on_exception st e =
           ({| images_generated := images_generated st;
               consecutive_errors := S (consecutive_errors st);
               sleep_time := sleep_time st;
               requests_made := requests_made st;
               sleeps := sleeps st |}, Some ExitFailures)
      else on_exception st e =
           ({| images_generated := images_generated st;
               consecutive_errors := S (consecutive_errors st);
               sleep_time := sleep_time st;
               requests_made := requests_made st;
               sleeps := sleeps st
                 ++ [Penalty (Nat.min 60 (sleep_time st * 2))] |}, None)
  end.
Proof.
  unfold classify, on_exception.
  destruct (is_quota_error e); [done|]. cbn [consecutive_errors].
  by destruct (5 <=? S (consecutive_errors st)).
Qed.

(** An iteration whose call fails runs the [except] clause on a state
    whose base delay is the one just slept, and whose sleeps end in that
    pace. *)
Lemma iteration_raised st o e :
  raised o = Some e ->
  exists st1,
    iteration st o = on_exception st1 e /\
    sleep_time st1 = sleep_time (progressive_sleep st) /\
    consecutive_errors st1 = consecutive_errors st /\
    sleeps st1 = sleeps st ++ [Pace (sleep_time (progressive_sleep st))].
Proof.
  intros Hr. pose proof (progressive_sleep_fields st) as (Hi & Hc & Hq & Hs).
  destruct o as [e'|parts]; simpl in Hr.
  - injection Hr as ->. unfold iteration. eexists. split; [reflexivity|].
    simpl. by rewrite Hc, Hs.
  - unfold iteration.
    set (st2 := do_sleep (Pace (sleep_time (progressive_sleep st)))
                  (progressive_sleep st)).
    pose proof (process_parts_raised parts (images_generated st2) false) as Hp.
    rewrite Hr in Hp.
    destruct (process_parts parts (images_generated st2) false)
      as [[images saved] r].
    simpl in Hp. subst r. eexists. split; [reflexivity|].
    simpl. by rewrite Hc, Hs.
Qed.

(** C3, as the code has it. After a failed call the loop either stops
    (a quota-style error, or the fifth consecutive failure) without any
    extra delay, or sleeps once more for the smaller of 60 and twice the
    base delay; the base delay itself is left as it was. *)
Theorem failure_penalty (st : gen_state) (o : call_outcome) (e : string) :
  raised o = Some e ->
  let d := sleep_time (progressive_sleep st) in
  exists st',
    sleep_time st' = d /\
    match classify e with
    | QuotaExhausted =>
        iteration st o = (st', Some ExitQuota) /\
        sleeps st' = sleeps st ++ [Pace d]
    | Transient =>
        if 5 <=? S (consecutive_errors st)
        then iteration st o = (st', Some ExitFailures) /\
             sleeps st' = sleeps st ++ [Pace d]
        else iteration st o = (st', None) /\
             sleeps st' = sleeps st ++ [Pace d; Penalty (Nat.min 60 (d * 2))]
    end.
Proof.
  intros Hr d. destruct (iteration_raised st o e Hr) as (st1 & -> & Hd & Hc & Hs).
  pose proof (on_exception_cases st1 e) as H.
  destruct (classify e).
  - eexists. split; [|split; [exact H|]]; simpl; [exact Hd | exact Hs].
  - rewrite Hc in H. destruct (5 <=? S (consecutive_errors st)).
    + eexists. split; [|split; [exact H|]]; simpl; [exact Hd | exact Hs].
    + eexists. split; [|split; [exact H|]]; simpl; [exact Hd |].
      rewrite Hs, Hd, <- app_assoc. reflexivity.
Qed.

(** [failure_penalty] at the first call of a run, failing with a
    connection error. *)
Lemma failure_penalty_witness :
  exists st',
    sleep_time st' = 8 /\
    iteration gen_init (CallRaises "connection reset") = (st', None) /\
    sleeps st' = [Pace 8; Penalty 16].
Proof.
  exact (failure_penalty gen_init (CallRaises "connection reset")
           "connection reset" eq_refl).
Defined.

(** C3, as stated, fails: with the initial base delay of 8 a transient
    failure is followed by an extra delay of 16, the smaller of 16 and 60,
    where the larger would be 60; and a quota-style failure is followed by
    no extra delay at all. *)
Lemma penalty_counterexample :
  sleeps (iteration gen_init (CallRaises "connection reset")).1
    = [Pace 8; Penalty 16] /\
  spec_penalty 8 = 60 /\
  iteration gen_init (CallRaises "429 Too Many Requests")
    = ({| images_generated := 0; consecutive_errors := 1; sleep_time := 8;
          requests_made := 0; sleeps := [Pace 8] |}, Some ExitQuota).
Proof. vm_compute. auto. Qed.

(** ** The production loop: the progressive sleep *)

Lemma paced_init : paced gen_init.
Proof. by split. Qed.

Lemma progressive_sleep_paced st :
  sleep_time st = pace_after (pred (requests_made st)) ->
  sleep_time (progressive_sleep st) = pace_after (requests_made st).
Proof.
  unfold progressive_sleep, pace_after. intros H.
  destruct (Nat.ltb_spec 0 (requests_made st)) as [Hpos|Hzero];
    destruct (Nat.eqb_spec (requests_made st mod 15) 0) as [Hmul|Hnot];
    cbn [andb sleep_time]; rewrite H.
  - pose proof (Nat.div_mod_eq (requests_made st) 15).
    pose proof (Nat.div_mod_eq (pred (requests_made st)) 15).
    pose proof (Nat.mod_upper_bound (pred (requests_made st)) 15).
    lia.
  - pose proof (Nat.div_mod_eq (requests_made st) 15).
    pose proof (Nat.div_mod_eq (pred (requests_made st)) 15).
    pose proof (Nat.mod_upper_bound (pred (requests_made st)) 15).
    pose proof (Nat.mod_upper_bound (requests_made st) 15).
    lia.
  - assert (requests_made st = 0) as -> by lia. done.
  - assert (requests_made st = 0) as -> by lia. done.
Qed.

(** Only a call that returned a response counts as a request made. *)
Lemma requests_made_counts st o :
  requests_made (iteration st o).1 =
  match o with
  | CallRaises _ => requests_made st
  | CallReturns _ => S (requests_made st)
  end.
Proof.
  pose proof (progressive_sleep_fields st) as (_ & _ & Hq & _).
  destruct o as [e|parts]; unfold iteration.
  - unfold on_exception. destruct (is_quota_error e); [simpl; by rewrite Hq|].
    destruct (5 <=? _); simpl; by rewrite Hq.
  - destruct (process_parts parts _ false) as [[images saved] [e|]].
    + unfold on_exception. destruct (is_quota_error e); [simpl; by rewrite Hq|].
      destruct (5 <=? _); simpl; by rewrite Hq.
    + destruct saved; simpl; by rewrite Hq.
Qed.

Lemma iteration_clean st o :
  raised o = None -> paced st ->
  exists st', iteration st o = (st', None) /\ paced st' /\
              requests_made st' = S (requests_made st).
Proof.
  intros Hr [Hd Hs]. destruct o as [e|parts]; [discriminate|]. simpl in Hr.
  pose proof (progressive_sleep_fields st) as (_ & _ & Hq & Hss).
  pose proof (progressive_sleep_paced st Hd) as Hp.
  unfold iteration.
  set (st2 := do_sleep (Pace (sleep_time (progressive_sleep st)))
                (progressive_sleep st)).
  pose proof (process_parts_raised parts (images_generated st2) false) as Hpr.
  rewrite Hr in Hpr.
  destruct (process_parts parts (images_generated st2) false)
    as [[images saved] r].
  simpl in Hpr. subst r.
  assert (sleeps st2 =
          map (fun k => Pace (pace_after k)) (seq 0 (S (requests_made st)))) as Hs2.
  { subst st2. cbn [sleeps do_sleep].
    rewrite seq_S, map_app, Hss, Hs, Hp. done. }
  assert (requests_made st2 = requests_made st) as Hq2 by (subst st2; done).
  assert (sleep_time st2 = pace_after (requests_made st)) as Hd2
    by (subst st2; done).
  destruct saved; eexists; (split; [reflexivity|]);
    unfold paced; cbn [sleep_time requests_made sleeps pred];
    rewrite Hq2, Hd2, Hs2; done.
Qed.

Lemma run_loop_clean max outcomes : forall st,
  Forall (fun o => raised o = None) outcomes -> paced st ->
  exists m,
    m <= length outcomes /\
    paced (final_state (run_loop max st outcomes)) /\
    requests_made (final_state (run_loop max st outcomes))
      = requests_made st + m /\
    (run_loop max st outcomes
       = Finished (final_state (run_loop max st outcomes)) ExitCeiling \/
     (run_loop max st outcomes
        = Interrupted (final_state (run_loop max st outcomes)) /\
      m = length outcomes)).
Proof.
  induction outcomes as [|o rest IH]; intros st Hall Hp; simpl.
  - exists 0. destruct (images_generated st <? max); simpl.
    + split; [lia|]. split; [done|]. split; [lia|]. right. done.
    + split; [lia|]. split; [done|]. split; [lia|]. left. done.
  - destruct (images_generated st <? max).
    + inversion Hall as [|? ? Ho Hrest]; subst.
      destruct (iteration_clean st o Ho Hp) as (st' & -> & Hp' & Hq').
      destruct (IH st' Hrest Hp') as (m & Hm & Hp'' & Hq'' & Hend).
      exists (S m). split; [lia|]. split; [done|]. split; [lia|].
      destruct Hend as [H|[H ->]]; [by left | right; by split].
    + exists 0. simpl. split; [lia|]. split; [done|]. split; [lia|].
      left. done.
Qed.

(** C5, as the code has it. [requests_made] counts the calls that returned
    a response, not the calls that raised; and in a run where every call
    returns cleanly, the base delay slept before the call that follows [k]
    requests is [8 + 7 * (k / 15)]: it goes up by exactly 7 at each
    positive multiple of 15, once, and nowhere else. *)
Theorem progressive_sleep_schedule (max : nat) (outcomes : list call_outcome) :
  Forall (fun o => raised o = None) outcomes ->
  (forall st o,
     requests_made (iteration st o).1 =
     match o with
     | CallRaises _ => requests_made st
     | CallReturns _ => S (requests_made st)
     end) /\
  exists m,
    m <= length outcomes /\
    requests_made (final_state (generate_with_key_upto max outcomes)) = m /\
    sleeps (final_state (generate_with_key_upto max outcomes))
      = map (fun k => Pace (pace_after k)) (seq 0 m) /\
    (forall j, pace_after (15 * (j + 1)) = pace_after (15 * j) + 7) /\
    (forall k, (k + 1) mod 15 <> 0 -> pace_after (k + 1) = pace_after k).
Proof.
  intros Hall. split; [apply requests_made_counts|].
  destruct (run_loop_clean max outcomes gen_init Hall paced_init)
    as (m & Hm & [_ Hs] & Hq & _).
  exists m. unfold generate_with_key_upto. rewrite Hq in Hs.
  repeat split; try done.
  - intros j. unfold pace_after.
    replace (15 * (j + 1)) with ((j + 1) * 15) by lia.
    replace (15 * j) with (j * 15) by lia.
    rewrite !Nat.div_mul by done. lia.
  - intros k Hk. unfold pace_after.
    pose proof (Nat.div_mod_eq (k + 1) 15).
    pose proof (Nat.div_mod_eq k 15).
    pose proof (Nat.mod_upper_bound k 15).
    pose proof (Nat.mod_upper_bound (k + 1) 15).
    lia.
Qed.

(** [progressive_sleep_schedule] on seventeen calls that each return one
    image: the sixteenth and seventeenth sleeps are 15 seconds long. *)
Lemma progressive_sleep_schedule_witness :
  Forall (fun o => raised o = None) (repeat one_image 17) /\
  exists m,
    m <= 17 /\
    requests_made (final_state (generate_with_key_upto 500 (repeat one_image 17)))
      = m /\
    sleeps (final_state (generate_with_key_upto 500 (repeat one_image 17)))
      = map (fun k => Pace (pace_after k)) (seq 0 m) /\
    (forall j, pace_after (15 * (j + 1)) = pace_after (15 * j) + 7) /\
    (forall k, (k + 1) mod 15 <> 0 -> pace_after (k + 1) = pace_after k).
Proof.
  assert (Forall (fun o => raised o = None) (repeat one_image 17)) as H
    by (repeat constructor).
  split; [exact H|].
  exact (proj2 (progressive_sleep_schedule 500 (repeat one_image 17) H)).
Defined.

(** C5, as stated, fails: a call that raises is not counted. After
    fifteen requests of which the first failed, the base delay slept
    before the sixteenth is still 8, where an escalation counted over all
    requests gives 15. *)
Lemma progressive_sleep_counterexample :
  let outcomes := CallRaises "connection reset" :: repeat one_image 14 in
  length outcomes = 15 /\
  (exists st, generate_with_key outcomes = Interrupted st /\
              requests_made st = 14 /\
              sleep_time (progressive_sleep st) = 8) /\
  spec_base_delay 15 = 15.
Proof.
  split; [reflexivity|]. split; [|reflexivity].
  eexists. split; [vm_compute; reflexivity|]. split; reflexivity.
Qed.

(** A call that raises right after a multiple of 15 leaves
    [requests_made] where it was, so the next iteration raises the base
    delay for the same request count once more. *)
Example progressive_sleep_repeats_after_failure :
  sleeps (final_state (generate_with_key
            (repeat one_image 15 ++ [CallRaises "connection reset"; one_image])))
  = map (fun k => Pace (pace_after k)) (seq 0 15)
    ++ [Pace 15; Penalty 30; Pace 22].
Proof. vm_compute. reflexivity. Qed.

(** ** The production loop: the ceiling *)

Lemma process_parts_images parts : forall n b,
  n <= (process_parts parts n b).1.1 <= n + images_in parts.
Proof.
  induction parts as [|p parts IH]; intros n b; simpl; [lia|].
  destruct p; simpl; try (specialize (IH n b); lia).
  specialize (IH (S n) true). lia.
Qed.

Lemma on_exception_images st e :
  images_generated (on_exception st e).1 = images_generated st.
Proof.
  unfold on_exception. destruct (is_quota_error e); [done|].
  by destruct (5 <=? _).
Qed.

Lemma iteration_images st o :
  images_generated st <= images_generated (iteration st o).1
    <= images_generated st + images_of o.
Proof.
  pose proof (progressive_sleep_fields st) as (Hi & _).
  destruct o as [e|parts]; unfold iteration.
  - rewrite on_exception_images. simpl. lia.
  - set (st2 := do_sleep (Pace (sleep_time (progressive_sleep st)))
                  (progressive_sleep st)).
    assert (images_generated st2 = images_generated st) as H2
      by (subst st2; done).
    pose proof (process_parts_images parts (images_generated st2) false) as Hp.
    destruct (process_parts parts (images_generated st2) false)
      as [[images saved] [e|]]; simpl in Hp.
    + rewrite on_exception_images. simpl. lia.
    + destruct saved; simpl; lia.
Qed.

(** The loop overshoots its ceiling by less than the size of one
    response: with at most [w] images per response, a run that starts
    below [max + w] ends below it. *)
Lemma run_loop_ceiling max w outcomes : forall st,
  Forall (fun o => images_of o <= S w) outcomes ->
  images_generated st <= max + w ->
  images_generated (final_state (run_loop max st outcomes)) <= max + w.
Proof.
  induction outcomes as [|o rest IH]; intros st Hall Hst; simpl.
  - by destruct (images_generated st <? max).
  - destruct (Nat.ltb_spec (images_generated st) max) as [Hlt|Hge]; [|done].
    inversion Hall as [|? ? Ho Hrest]; subst.
    pose proof (iteration_images st o) as Hi.
    destruct (iteration st o) as [st' [why|]]; simpl in *; [lia|].
    apply IH; [done | lia].
Qed.

(** When every response carries at most one image, the count returned
    stays within the ceiling. *)
Lemma generate_with_key_single_image_ceiling outcomes :
  Forall (fun o => images_of o <= 1) outcomes ->
  images_generated (final_state (generate_with_key outcomes)) <= 500.
Proof.
  intros H.
  assert (images_generated gen_init <= 500 + 0) as H0
    by (cbn [images_generated gen_init]; lia).
  pose proof (run_loop_ceiling 500 0 outcomes gen_init H H0) as Hc.
  unfold generate_with_key, generate_with_key_upto. lia.
Qed.

(** C9 fails on a response that carries two images: the ceiling is only
    tested between calls, so after 499 single images one more response
    with two images makes the run return 501. *)
Lemma ceiling_overshoot :
  exists st,
    generate_with_key
      (repeat one_image 499 ++ [CallReturns [PartImage; PartImage]])
      = Finished st ExitCeiling /\
    images_generated st = 501.
Proof. eexists. split; [vm_compute; reflexivity | reflexivity]. Qed.

(** ** The rotation loop: one credential *)

Lemma writes_of_app es1 es2 : writes_of (es1 ++ es2) = writes_of es1 ++ writes_of es2.
Proof.
  induction es1 as [|e es1 IH]; [done|].
  destruct e; simpl; rewrite IH; done.
Qed.

Lemma writes_emit e st :
  writes (emit e st) =
  writes st ++ match e with EvSave cp => [cp] | _ => [] end.
Proof. unfold writes, emit. simpl. rewrite writes_of_app. by destruct e. Qed.

Lemma writes_mark_exhausted key st : writes (mark_exhausted key st) = writes st.
Proof. done. Qed.

Lemma writes_except_clause i key st : writes (except_clause i key st) = writes st.
Proof. unfold except_clause. by rewrite writes_emit, app_nil_r. Qed.

(** After the update the in-memory dictionary holds: the position just
    run, the total raised by the count, the count stored under the
    credential's identifier (replacing what was there), and the key
    appended to the exhausted list when the count is below 50. *)
Lemma ran_prog i key n why st :
  prog (ran i key n why st) =
  if n <? 50 then append_key key (store_run i n (prog st))
  else store_run i n (prog st).
Proof. unfold ran, update_progress. by destruct (n <? 50). Qed.

Lemma ran_events i key n why st :
  events (ran i key n why st) = events st ++ [EvProbe i true; EvRun i n why].
Proof.
  unfold ran, update_progress.
  destruct (n <? 50); simpl; rewrite <- app_assoc; done.
Qed.

Lemma ran_index i key n why st : current_key_index (prog (ran i key n why st)) = i.
Proof. rewrite ran_prog. by destruct (n <? 50). Qed.

(** The checkpoint written is the dictionary as it stands in memory. *)
Lemma write_checkpoint_events i st :
  current_key_index (prog st) = i ->
  events (write_checkpoint i st) = events st ++ [EvSave (prog st)].
Proof. destruct st as [[idx total counts keys] es]. simpl. by intros ->. Qed.

Lemma write_checkpoint_ran i key n why st :
  events (write_checkpoint i (ran i key n why st))
    = events st ++ [EvProbe i true; EvRun i n why;
                    EvSave (prog (ran i key n why st))] /\
  prog (write_checkpoint i (ran i key n why st)) = prog (ran i key n why st).
Proof.
  split; [|done].
  rewrite write_checkpoint_events by apply ran_index.
  rewrite ran_events, <- app_assoc. done.
Qed.

(** A rejected probe raised a quota error, so nothing was logged at
    line 68. *)
Lemma probe_escape_rejected b :
  test_api_key (probe_error b) = false -> probe_escape b = None.
Proof.
  unfold test_api_key, probe_escape.
  destruct (probe_error b) as [e|]; [|done].
  by destruct (is_quota_error e).
Qed.

Section Rotation.

Variable all_keys : list string.
Variable env : nat -> key_behaviour.

Lemma body_skip i key st :
  all_keys !! i = Some key -> key ∈ exhausted_keys (prog st) ->
  body all_keys env i st = Next (emit (EvSkip i) st).
Proof.
  intros Hk Hin. unfold body. rewrite Hk.
  by rewrite bool_decide_eq_true_2.
Qed.

Lemma body_attempt i key st :
  all_keys !! i = Some key -> key ∉ exhausted_keys (prog st) ->
  body all_keys env i st = attempt_key env i key st.
Proof.
  intros Hk Hin. unfold body. rewrite Hk.
  by rewrite bool_decide_eq_false_2.
Qed.

(** The body of a credential whose client, probe and run raise nothing
    and whose run returns. *)
Lemma body_after_run i key st g why :
  all_keys !! i = Some key ->
  key ∉ exhausted_keys (prog st) ->
  client_error (env i) = None ->
  probe_escape (env i) = None ->
  test_api_key (probe_error (env i)) = true ->
  run_error (env i) = None ->
  generate_with_key (calls (env i)) = Finished g why ->
  body all_keys env i st =
  Next match save_error (env i), listing_error (env i) with
       | Some _, _ => except_clause i key (ran i key (images_generated g) why st)
       | None, Some _ =>
           except_clause i key
             (write_checkpoint i (ran i key (images_generated g) why st))
       | None, None => write_checkpoint i (ran i key (images_generated g) why st)
       end.
Proof.
  intros Hk Hnot Hc Hpe Hp Hre Hg.
  rewrite (body_attempt i key st Hk Hnot).
  unfold attempt_key, try_block. rewrite Hc, Hpe, Hp, Hre, Hg.
  fold (ran i key (images_generated g) why st).
  destruct (save_error (env i)); [done|].
  by destruct (listing_error (env i)).
Qed.

Lemma body_cases i st :
  body_case all_keys i st (state_of (body all_keys env i st)).
Proof.
  unfold body. destruct (all_keys !! i) as [key|] eqn:Hk.
  - destruct (decide (key ∈ exhausted_keys (prog st))) as [Hin|Hin].
    + rewrite bool_decide_eq_true_2 by done. by eapply CaseSkip.
    + rewrite bool_decide_eq_false_2 by done. unfold attempt_key, try_block.
      destruct (client_error (env i)); [by eapply CaseFatal|].
      destruct (probe_escape (env i)); [by eapply CaseFatal|].
      destruct (test_api_key _); [|by eapply CaseProbeFalse].
      destruct (run_error (env i)); [by eapply CaseRunRaised|].
      destruct (generate_with_key _) as [g why|g]; [|by eapply CaseInterrupted].
      fold (ran i key (images_generated g) why st).
      destruct (save_error (env i)); [by eapply CaseSaveRaised|].
      destruct (listing_error (env i));
        [by eapply CaseListingRaised | by eapply CaseRun].
  - by apply CaseOutOfRange.
Qed.

(** One shape for every pass through the body. The dictionary first
    reaches a middle state [mid]: the one it had, or that one with the run
    stored and, below 50 images, the key appended. At most one checkpoint
    is written, and it is [mid]. The final dictionary is [mid], or [mid]
    with the key appended by the [except] clause. *)
Lemma body_shape i st :
  let st' := state_of (body all_keys env i st) in
  exists mid,
    (mid = prog st \/
     exists key n, all_keys !! i = Some key /\
       (mid = store_run i n (prog st) \/
        mid = append_key key (store_run i n (prog st)))) /\
    (prog st' = mid \/
     exists key, all_keys !! i = Some key /\ prog st' = append_key key mid) /\
    (writes st' = writes st \/ writes st' = writes st ++ [mid]).
Proof.
  intros st'. subst st'.
  assert (forall key n why,
            all_keys !! i = Some key ->
            prog (ran i key n why st) = store_run i n (prog st) \/
            prog (ran i key n why st) = append_key key (store_run i n (prog st)))
    as Hran.
  { intros key n why _. rewrite ran_prog. destruct (n <? 50); auto. }
  assert (forall key n why,
            writes (write_checkpoint i (ran i key n why st))
            = writes st ++ [prog (ran i key n why st)]) as Hw.
  { intros key n why. unfold writes.
    rewrite (proj1 (write_checkpoint_ran i key n why st)), writes_of_app. done. }
  assert (forall key n why, writes (ran i key n why st) = writes st) as Hw0.
  { intros key n why. unfold writes. rewrite ran_events, writes_of_app.
    simpl. by rewrite app_nil_r. }
  destruct (body_cases i st) as [|key|key Hk|key Hk|key Hk|key Hk
                                |key n why Hk|key n why Hk|key n why Hk].
  - exists (prog st). auto.
  - exists (prog st). split; [auto|]. split; [auto|].
    left. by rewrite writes_emit, app_nil_r.
  - exists (prog st). split; [auto|]. split; [right; by exists key|].
    left. apply writes_except_clause.
  - exists (prog st). split; [auto|]. split; [right; by exists key|].
    left. by rewrite writes_emit, app_nil_r.
  - exists (prog st). split; [auto|]. split; [right; by exists key|].
    left. by rewrite writes_except_clause, writes_emit, app_nil_r.
  - exists (prog st). split; [auto|]. split; [auto|].
    left. by rewrite !writes_emit, !app_nil_r.
  - exists (prog (ran i key n why st)).
    split; [right; exists key, n; split; [done | by eapply Hran]|].
    split; [by left|]. right. apply Hw.
  - exists (prog (ran i key n why st)).
    split; [right; exists key, n; split; [done | by eapply Hran]|].
    split; [right; by exists key|].
    left. rewrite writes_except_clause. apply Hw0.
  - exists (prog (ran i key n why st)).
    split; [right; exists key, n; split; [done | by eapply Hran]|].
    split; [right; by exists key|].
    right. rewrite writes_except_clause. apply Hw.
Qed.

(** The exhausted list only grows, and only by the key of the position
    being processed. *)
Lemma body_exhausted i st :
  let st' := state_of (body all_keys env i st) in
  exists more,
    exhausted_keys (prog st') = exhausted_keys (prog st) ++ more /\
    Forall (fun k => all_keys !! i = Some k) more.
Proof.
  intros st'. subst st'.
  destruct (body_shape i st) as (mid & Hmid & Hfin & _).
  assert (exists more1, exhausted_keys mid = exhausted_keys (prog st) ++ more1 /\
                        Forall (fun k => all_keys !! i = Some k) more1)
    as (more1 & Hm1 & Hf1).
  { destruct Hmid as [->|(key & n & Hk & [->| ->])].
    - exists []. by rewrite app_nil_r.
    - exists []. simpl. by rewrite app_nil_r.
    - exists [key]. simpl. split; [done | by repeat constructor]. }
  destruct Hfin as [->|(key & Hk & ->)].
  - by exists more1.
  - exists (more1 ++ [key]). simpl. rewrite Hm1, <- app_assoc.
    split; [done|]. apply Forall_app. split; [done | by repeat constructor].
Qed.

(** Once a key is in the exhausted list it stays there. *)
Lemma body_keeps_exhausted key i st :
  key ∈ exhausted_keys (prog st) ->
  key ∈ exhausted_keys (prog (state_of (body all_keys env i st))).
Proof.
  intros Hin. destruct (body_exhausted i st) as (more & -> & _).
  apply elem_of_app. by left.
Qed.

(** A property of the state that every pass through the body keeps holds
    when the loop ends. *)
Lemma for_keys_invariant (P : main_state -> Prop) :
  (forall i st, P st -> P (state_of (body all_keys env i st))) ->
  forall positions st, P st -> P (for_keys all_keys env positions st).
Proof.
  intros Hstep positions.
  induction positions as [|i rest IH]; intros st HP; simpl; [done|].
  pose proof (Hstep i st HP) as HP'.
  destruct (body all_keys env i st) as [st'|st']; simpl in *; [by apply IH | done].
Qed.

Section Preserved.

(** A property of the dictionary that appending a configured key and
    storing a run keep. *)
Variable P : progress -> Prop.
Hypothesis P_append : forall key p, key ∈ all_keys -> P p -> P (append_key key p).
Hypothesis P_store :
  forall i n p, i < length all_keys -> P p -> P (store_run i n p).

Lemma body_preserves i st :
  P (prog st) ->
  let st' := state_of (body all_keys env i st) in
  P (prog st') /\ forall cp, cp ∈ writes st' -> cp ∈ writes st \/ P cp.
Proof.
  intros HP st'. subst st'.
  destruct (body_shape i st) as (mid & Hmid & Hfin & Hw).
  assert (P mid) as Hmid'.
  { destruct Hmid as [->|(key & n & Hk & [->| ->])]; [done| |].
    - apply P_store; [by eapply lookup_lt_Some | done].
    - apply P_append; [by eapply list_elem_of_lookup_2|].
      apply P_store; [by eapply lookup_lt_Some | done]. }
  split.
  - destruct Hfin as [->|(key & Hk & ->)]; [done|].
    apply P_append; [by eapply list_elem_of_lookup_2 | done].
  - intros cp Hcp. destruct Hw as [Hw|Hw]; rewrite Hw in Hcp; [by left|].
    apply elem_of_app in Hcp as [Hcp|Hcp]; [by left|].
    apply list_elem_of_singleton in Hcp as ->. by right.
Qed.

(** Such a property holds of the dictionary when the loop ends and of
    every checkpoint the loop writes. *)
Lemma for_keys_writes positions : forall st,
  P (prog st) ->
  P (prog (for_keys all_keys env positions st)) /\
  forall cp, cp ∈ writes (for_keys all_keys env positions st) ->
             cp ∈ writes st \/ P cp.
Proof.
  induction positions as [|i rest IH]; intros st HP; simpl.
  - split; [done | by left].
  - destruct (body_preserves i st HP) as [HP' Hw]. simpl in *.
    destruct (body all_keys env i st) as [st'|st']; simpl in *.
    + destruct (IH st' HP') as [HP'' Hw']. split; [done|].
      intros cp Hcp. destruct (Hw' cp Hcp) as [Hin|Hin]; [by apply Hw | by right].
    + by split.
Qed.

End Preserved.

Section PreservedFrom.

(** The same for a property that depends on the position the loop has
    reached, when the positions are scanned in order. *)
Variable Q : nat -> progress -> Prop.
Hypothesis Q_next : forall a p, Q a p -> Q (S a) p.
Hypothesis Q_append : forall a key p, Q a p -> Q a (append_key key p).
Hypothesis Q_store : forall a n p, Q a p -> Q (S a) (store_run a n p).

Lemma body_preserves_from a st :
  Q a (prog st) ->
  let st' := state_of (body all_keys env a st) in
  Q (S a) (prog st') /\
  forall cp, cp ∈ writes st' -> cp ∈ writes st \/ Q (S a) cp.
Proof.
  intros HQ st'. subst st'.
  destruct (body_shape a st) as (mid & Hmid & Hfin & Hw).
  assert (Q (S a) mid) as Hmid'.
  { destruct Hmid as [->|(key & n & Hk & [->| ->])]; auto. }
  split.
  - destruct Hfin as [->|(key & Hk & ->)]; auto.
  - intros cp Hcp. destruct Hw as [Hw|Hw]; rewrite Hw in Hcp; [by left|].
    apply elem_of_app in Hcp as [Hcp|Hcp]; [by left|].
    apply list_elem_of_singleton in Hcp as ->. by right.
Qed.

Lemma for_keys_writes_from n : forall a st,
  Q a (prog st) ->
  forall cp, cp ∈ writes (for_keys all_keys env (seq a n) st) ->
             cp ∈ writes st \/ exists b, Q b cp.
Proof.
  induction n as [|n IH]; intros a st HQ cp Hcp; simpl in Hcp; [by left|].
  destruct (body_preserves_from a st HQ) as [HQ' Hw]. simpl in *.
  destruct (body all_keys env a st) as [st'|st']; simpl in *.
  - destruct (IH (S a) st' HQ' cp Hcp) as [Hin|Hin]; [|by right].
    destruct (Hw cp Hin) as [?|?]; [by left | right; by exists (S a)].
  - destruct (Hw cp Hcp) as [?|?]; [by left | right; by exists (S a)].
Qed.

End PreservedFrom.

End Rotation.

(** ** The rotation loop: marking credentials exhausted *)

(** The dictionary after a run, field by field. *)
Lemma ran_prog_record i key n why st :
  prog (ran i key n why st) =
  {| current_key_index := i;
     total_images_generated := total_images_generated (prog st) + n;
     images_per_key := <[key_name i := n]> (images_per_key (prog st));
     exhausted_keys := exhausted_keys (prog st)
                         ++ (if n <? 50 then [key] else []) |}.
Proof.
  rewrite ran_prog. destruct (n <? 50); simpl; rewrite ?app_nil_r; done.
Qed.

Lemma writes_ran i key n why st : writes (ran i key n why st) = writes st.
Proof.
  unfold writes. rewrite ran_events, writes_of_app. simpl. by rewrite app_nil_r.
Qed.

Lemma writes_write_checkpoint_ran i key n why st :
  writes (write_checkpoint i (ran i key n why st))
    = writes st ++ [prog (ran i key n why st)].
Proof.
  unfold writes.
  rewrite (proj1 (write_checkpoint_ran i key n why st)), writes_of_app. done.
Qed.

(** C1, as the code has it. [generate_with_key] returns only a count, so a
    run that ended on a quota-style error is told apart from any other
    only by that count: line 198 appends the key to the exhausted list
    exactly when fewer than 50 images were produced, and the checkpoint,
    when its write succeeds, carries the list as it then stands. The only
    other way for the key to be marked before the next credential is the
    [except] clause, when the checkpoint write or the listing after it
    raises. With 50 images or more and nothing raised, the exhausted list
    is left as it was. *)
Theorem quota_exit_marks_below_threshold
    (all_keys : list string) (env : nat -> key_behaviour)
    (i : nat) (key : string) (st : main_state) (g : gen_state) :
  all_keys !! i = Some key ->
  key ∉ exhausted_keys (prog st) ->
  client_error (env i) = None ->
  probe_escape (env i) = None ->
  test_api_key (probe_error (env i)) = true ->
  run_error (env i) = None ->
  generate_with_key (calls (env i)) = Finished g ExitQuota ->
  let n := images_generated g in
  let marked := exhausted_keys (prog st) ++ (if n <? 50 then [key] else []) in
  exists st',
    body all_keys env i st = Next st' /\
    exhausted_keys (prog st') =
      marked ++ (if raises_after_run (env i) then [key] else []) /\
    (key ∈ exhausted_keys (prog st') <->
       n < 50 \/ raises_after_run (env i) = true) /\
    writes st' =
      writes st ++
      match save_error (env i) with
      | Some _ => []
      | None =>
          [{| current_key_index := i;
              total_images_generated := total_images_generated (prog st) + n;
              images_per_key := <[key_name i := n]> (images_per_key (prog st));
              exhausted_keys := marked |}]
      end.
Proof.
  intros Hk Hnot Hc Hpe Hp Hre Hg n marked.
  rewrite (body_after_run all_keys env i key st g ExitQuota Hk Hnot Hc Hpe Hp Hre Hg).
  fold n. eexists. split; [reflexivity|].
  assert (key ∈ marked <-> n < 50) as Hmarked.
  { subst marked. destruct (Nat.ltb_spec n 50) as [Hlt|Hge].
    - split; [done|]. intros _. apply elem_of_app. right. by left.
    - rewrite app_nil_r. split; [done | lia]. }
  clearbody n. unfold raises_after_run.
  destruct (save_error (env i)) as [e1|]; [|destruct (listing_error (env i)) as [e2|]].
  - change (prog (except_clause i key (ran i key n ExitQuota st)))
      with (append_key key (prog (ran i key n ExitQuota st))).
    rewrite writes_except_clause, writes_ran, ran_prog_record, app_nil_r.
    cbn [exhausted_keys append_key]. fold marked.
    split; [done|]. split; [|done].
    split; [auto|]. intros _. apply elem_of_app. right. by left.
  - change (prog (except_clause i key
                    (write_checkpoint i (ran i key n ExitQuota st))))
      with (append_key key (prog (ran i key n ExitQuota st))).
    rewrite writes_except_clause, writes_write_checkpoint_ran, ran_prog_record.
    cbn [exhausted_keys append_key]. fold marked.
    split; [done|]. split; [|done].
    split; [auto|]. intros _. apply elem_of_app. right. by left.
  - change (prog (write_checkpoint i (ran i key n ExitQuota st)))
      with (prog (ran i key n ExitQuota st)).
    rewrite writes_write_checkpoint_ran, ran_prog_record.
    cbn [exhausted_keys]. fold marked. rewrite app_nil_r.
    split; [done|]. split; [|done].
    rewrite Hmarked. split; [auto|]. intros [?|?]; [done | discriminate].
Qed.

(** [quota_exit_marks_below_threshold] on a credential that produced 60
    images before its quota error and whose checkpoint could not be
    written: the [except] clause marks the key, and nothing is written. *)
Lemma quota_exit_marks_below_threshold_witness :
  images_generated after_sixty_images = 60 /\
  let n := images_generated after_sixty_images in
  let marked := exhausted_keys (prog fresh_state)
                  ++ (if n <? 50 then ["AIza-first"] else []) in
  exists st',
    body ["AIza-first"] (fun _ => quota_after_unsaved 60) 0 fresh_state
      = Next st' /\
    exhausted_keys (prog st') =
      marked ++ (if raises_after_run (quota_after_unsaved 60)
                 then ["AIza-first"] else []) /\
    ("AIza-first" ∈ exhausted_keys (prog st') <->
       n < 50 \/ raises_after_run (quota_after_unsaved 60) = true) /\
    writes st' =
      writes fresh_state ++
      match save_error (quota_after_unsaved 60) with
      | Some _ => []
      | None =>
          [{| current_key_index := 0;
              total_images_generated
                := total_images_generated (prog fresh_state) + n;
              images_per_key
                := <[key_name 0 := n]> (images_per_key (prog fresh_state));
              exhausted_keys := marked |}]
      end.
Proof.
  split; [vm_compute; reflexivity|].
  apply (quota_exit_marks_below_threshold ["AIza-first"]
           (fun _ => quota_after_unsaved 60) 0 "AIza-first" fresh_state
           after_sixty_images).
  - reflexivity.
  - intros H. inversion H.
  - reflexivity.
  - reflexivity.
  - reflexivity.
  - reflexivity.
  - vm_compute. reflexivity.
Defined.

(** C1, as stated, fails: a credential that produced 50 images before its
    quota error ends its run on [ExitQuota], and neither the in-memory
    exhausted list nor the checkpoint written for it names it. *)
Lemma quota_exit_counterexample :
  let st := main ["AIza-first"; "AIza-second"] fifty_then_none None in
  events st =
    [EvProbe 0 true; EvRun 0 50 ExitQuota;
     EvSave {| current_key_index := 0; total_images_generated := 50;
               images_per_key := {[ "key_1" := 50 ]};
               exhausted_keys := [] |};
     EvProbe 1 true; EvRun 1 0 ExitQuota;
     EvSave {| current_key_index := 1; total_images_generated := 50;
               images_per_key := <[ "key_2" := 0 ]> {[ "key_1" := 50 ]};
               exhausted_keys := ["AIza-second"] |}] /\
  "AIza-first" ∉ exhausted_keys (prog st).
Proof.
  split; [vm_compute; reflexivity|].
  assert (exhausted_keys
            (prog (main ["AIza-first"; "AIza-second"] fifty_then_none None))
          = ["AIza-second"]) as -> by (vm_compute; reflexivity).
  intros H. apply list_elem_of_singleton in H. discriminate H.
Qed.

(** An iteration in which nothing raises goes on to the next one. *)
Lemma iteration_not_raised st o :
  raised o = None -> exists st', iteration st o = (st', None).
Proof.
  intros Hr. destruct o as [e|parts]; [discriminate|]. simpl in Hr.
  unfold iteration.
  set (st2 := do_sleep (Pace (sleep_time (progressive_sleep st)))
                (progressive_sleep st)).
  pose proof (process_parts_raised parts (images_generated st2) false) as Hp.
  rewrite Hr in Hp.
  destruct (process_parts parts (images_generated st2) false)
    as [[images saved] r].
  simpl in Hp. subst r. destruct saved; eexists; reflexivity.
Qed.

(** X9. The loop is left on [ExitQuota] only by an error the classifier
    labels [QuotaExhausted]. *)
Lemma exit_quota_sound max outcomes : forall st g,
  run_loop max st outcomes = Finished g ExitQuota ->
  exists o e, o ∈ outcomes /\ raised o = Some e /\ classify e = QuotaExhausted.
Proof.
  induction outcomes as [|o rest IH]; intros st g H; simpl in H.
  - destruct (images_generated st <? max); discriminate.
  - destruct (images_generated st <? max); [|discriminate].
    destruct (raised o) as [e|] eqn:Hr.
    + destruct (iteration_raised st o e Hr) as (st1 & Hit & _).
      rewrite Hit in H. pose proof (on_exception_cases st1 e) as Hc.
      destruct (classify e) eqn:Hcl.
      * exists o, e. split; [by left | done].
      * destruct (5 <=? S (consecutive_errors st1)); rewrite Hc in H;
          [discriminate|].
        destruct (IH _ _ H) as (o' & e' & Hin & Ho').
        exists o', e'. split; [by right | done].
    + destruct (iteration_not_raised st o Hr) as [st' Hit].
      rewrite Hit in H. destruct (IH _ _ H) as (o' & e' & Hin & Ho').
      exists o', e'. split; [by right | done].
Qed.

(** ** The rotation loop: fatal errors and failed probes *)

(** The exceptions that leave the [try] block, and the state each leaves
    behind. *)
Lemma try_block_raised env i key st st1 e :
  try_block env i key st = Raised st1 e ->
  (client_error (env i) = Some e /\ st1 = st) \/
  (probe_escape (env i) = Some e /\ st1 = st) \/
  (run_error (env i) = Some e /\ st1 = emit (EvProbe i true) st) \/
  (exists n why,
     (save_error (env i) = Some e /\ st1 = ran i key n why st) \/
     (listing_error (env i) = Some e /\
      st1 = write_checkpoint i (ran i key n why st))).
Proof.
  unfold try_block.
  destruct (client_error (env i)) as [e0|].
  { intros [= <- <-]. auto. }
  destruct (probe_escape (env i)) as [e0|].
  { intros [= <- <-]. auto. }
  destruct (test_api_key _); [|discriminate].
  destruct (run_error (env i)) as [e0|].
  { intros [= <- <-]. auto. }
  destruct (generate_with_key _) as [g why|g]; [|discriminate].
  fold (ran i key (images_generated g) why st).
  destruct (save_error (env i)) as [e0|].
  { intros [= <- <-]. do 3 right. exists (images_generated g), why. auto. }
  destruct (listing_error (env i)) as [e0|]; [|discriminate].
  intros [= <- <-]. do 3 right. exists (images_generated g), why. auto.
Qed.

(** C7, as the code has it. Whatever raises inside the [try] block (the
    client constructor, the log call of the probe, [generate_with_key],
    [save_progress], or the listing and log call after it), the [except]
    clause appends the key to the in-memory exhausted list and writes no
    checkpoint, and the loop goes on with the remaining positions. The
    only checkpoint such a pass can have written is the one of line 200,
    before a raising listing; it does not carry the mark of the [except]
    clause. *)
Theorem fatal_marks_and_continues
    (all_keys : list string) (env : nat -> key_behaviour)
    (i : nat) (rest : list nat) (key e : string) (st st1 : main_state) :
  all_keys !! i = Some key ->
  key ∉ exhausted_keys (prog st) ->
  try_block env i key st = Raised st1 e ->
  exists st',
    body all_keys env i st = Next st' /\
    for_keys all_keys env (i :: rest) st = for_keys all_keys env rest st' /\
    events st' = events st1 ++ [EvFatal i] /\
    writes st' = writes st1 /\
    exhausted_keys (prog st') = exhausted_keys (prog st1) ++ [key] /\
    (client_error (env i) = Some e \/ probe_escape (env i) = Some e \/
     run_error (env i) = Some e \/ save_error (env i) = Some e \/
     listing_error (env i) = Some e) /\
    (writes st1 = writes st \/
     (listing_error (env i) = Some e /\ writes st1 = writes st ++ [prog st1])).
Proof.
  intros Hk Hnot Hraised.
  assert (body all_keys env i st = Next (except_clause i key st1)) as Hb.
  { rewrite (body_attempt all_keys env i key st Hk Hnot).
    unfold attempt_key. by rewrite Hraised. }
  eexists. split; [exact Hb|]. simpl. rewrite Hb.
  split; [done|]. split; [done|].
  split; [apply writes_except_clause|]. split; [done|].
  destruct (try_block_raised env i key st st1 e Hraised)
    as [[He ->]|[[He ->]|[[He ->]|(n & why & [[He ->]|[He ->]])]]].
  - split; [auto | by left].
  - split; [auto | by left].
  - split; [auto|]. left. by rewrite writes_emit, app_nil_r.
  - split; [auto|]. left. apply writes_ran.
  - split; [auto 6|]. right. split; [done|].
    apply writes_write_checkpoint_ran.
Qed.

(** [fatal_marks_and_continues] on a credential that produced 60 images
    and whose checkpoint could not be written, followed by a second
    credential. *)
Lemma fatal_marks_and_continues_witness :
  let env := fun i => if i =? 0 then quota_after_unsaved 60 else quota_after 0 in
  let st1 := ran 0 "AIza-first" 60 ExitQuota fresh_state in
  try_block env 0 "AIza-first" fresh_state
    = Raised st1 "No space left on device" /\
  exists st',
    body ["AIza-first"; "AIza-second"] env 0 fresh_state = Next st' /\
    for_keys ["AIza-first"; "AIza-second"] env [0; 1] fresh_state
      = for_keys ["AIza-first"; "AIza-second"] env [1] st' /\
    events st' = events st1 ++ [EvFatal 0] /\
    writes st' = writes st1 /\
    exhausted_keys (prog st') = exhausted_keys (prog st1) ++ ["AIza-first"] /\
    (client_error (env 0) = Some "No space left on device" \/
     probe_escape (env 0) = Some "No space left on device" \/
     run_error (env 0) = Some "No space left on device" \/
     save_error (env 0) = Some "No space left on device" \/
     listing_error (env 0) = Some "No space left on device") /\
    (writes st1 = writes fresh_state \/
     (listing_error (env 0) = Some "No space left on device" /\
      writes st1 = writes fresh_state ++ [prog st1])).
Proof.
  intros env st1.
  assert (try_block env 0 "AIza-first" fresh_state
          = Raised st1 "No space left on device") as H
    by (vm_compute; reflexivity).
  split; [exact H|].
  apply (fatal_marks_and_continues ["AIza-first"; "AIza-second"] env 0 [1]
           "AIza-first" "No space left on device" fresh_state st1).
  - reflexivity.
  - intros Hin. inversion Hin.
  - exact H.
Defined.

(** C7, as stated, fails: after the fatal error of the first credential
    the second one is probed and run, and no checkpoint is written at the
    fatal error; when the failing credential is the only one, the process
    ends without having written anything. *)
Lemma fatal_counterexample :
  events (main ["AIza-bad"; "AIza-good"] bad_then_good None) =
    [EvFatal 0; EvProbe 1 true; EvRun 1 0 ExitQuota;
     EvSave {| current_key_index := 1; total_images_generated := 0;
               images_per_key := {[ "key_2" := 0 ]};
               exhausted_keys := ["AIza-bad"; "AIza-good"] |}] /\
  events (main ["AIza-bad"] bad_then_good None) = [EvFatal 0] /\
  writes (main ["AIza-bad"] bad_then_good None) = [].
Proof. vm_compute. auto. Qed.

(** C8, as the code has it. When the probe returns false the key is
    appended to the in-memory exhausted list and the loop goes on, without
    a checkpoint write; the mark reaches [progress.json] with the next
    checkpoint that a later credential's run writes, if there is one. *)
Theorem probe_failure_marks_without_saving
    (all_keys : list string) (env : nat -> key_behaviour)
    (i : nat) (rest : list nat) (key : string) (st : main_state) :
  all_keys !! i = Some key ->
  key ∉ exhausted_keys (prog st) ->
  client_error (env i) = None ->
  test_api_key (probe_error (env i)) = false ->
  exists st',
    body all_keys env i st = Next st' /\
    for_keys all_keys env (i :: rest) st = for_keys all_keys env rest st' /\
    events st' = events st ++ [EvProbe i false] /\
    writes st' = writes st /\
    exhausted_keys (prog st') = exhausted_keys (prog st) ++ [key] /\
    forall cp, cp ∈ writes (for_keys all_keys env rest st') ->
               cp ∈ writes st \/ key ∈ exhausted_keys cp.
Proof.
  intros Hk Hnot Hc Hp.
  assert (body all_keys env i st
          = Next (emit (EvProbe i false) (mark_exhausted key st))) as Hb.
  { rewrite (body_attempt all_keys env i key st Hk Hnot).
    unfold attempt_key, try_block.
    by rewrite Hc, (probe_escape_rejected _ Hp), Hp. }
  eexists. split; [exact Hb|]. simpl. rewrite Hb.
  assert (writes (emit (EvProbe i false) (mark_exhausted key st)) = writes st)
    as Hw by (by rewrite writes_emit, app_nil_r).
  repeat split; try done.
  intros cp Hcp. rewrite <- Hw.
  apply (for_keys_writes all_keys env (fun p => key ∈ exhausted_keys p))
    with (positions := rest); [| | |done].
  - intros k p _ Hin. simpl. apply elem_of_app. by left.
  - intros j n p _ Hin. exact Hin.
  - simpl. apply elem_of_app. right. by left.
Qed.

(** [probe_failure_marks_without_saving] on two credentials of which the
    first fails its probe. *)
Lemma probe_failure_marks_without_saving_witness :
  exists st',
    body ["AIza-dead"; "AIza-good"] dead_then_good 0 fresh_state = Next st' /\
    for_keys ["AIza-dead"; "AIza-good"] dead_then_good [0; 1] fresh_state
      = for_keys ["AIza-dead"; "AIza-good"] dead_then_good [1] st' /\
    events st' = events fresh_state ++ [EvProbe 0 false] /\
    writes st' = writes fresh_state /\
    exhausted_keys (prog st') = exhausted_keys (prog fresh_state) ++ ["AIza-dead"] /\
    forall cp,
      cp ∈ writes (for_keys ["AIza-dead"; "AIza-good"] dead_then_good [1] st') ->
      cp ∈ writes fresh_state \/ "AIza-dead" ∈ exhausted_keys cp.
Proof.
  apply (probe_failure_marks_without_saving ["AIza-dead"; "AIza-good"]
           dead_then_good 0 [1] "AIza-dead" fresh_state).
  - reflexivity.
  - intros H. inversion H.
  - reflexivity.
  - reflexivity.
Defined.

(** C8, as stated, fails: the probe of the only credential returns false,
    the key is marked in memory, and the process ends without a single
    checkpoint write. *)
Lemma probe_failure_counterexample :
  let st := main ["AIza-dead"] dead_then_good None in
  events st = [EvProbe 0 false] /\
  exhausted_keys (prog st) = ["AIza-dead"] /\
  writes st = [].
Proof. vm_compute. auto. Qed.

(** ** The checkpoint: what it names *)

Lemma key_name_inj i j : key_name i = key_name j -> i = j.
Proof.
  unfold key_name. intros H.
  change (String "k" (String "e" (String "y" (String "_" (pretty (i + 1)))))
          = String "k" (String "e" (String "y" (String "_" (pretty (j + 1))))))
    in H.
  injection H as H. apply (inj pretty) in H. lia.
Qed.

(** C4, as the code has it. In every checkpoint the process writes, the
    per-credential counts are keyed by position-derived identifiers
    ([key_1], [key_2], ...) or by what the loaded checkpoint already held;
    the exhausted list, in contrast, holds the credentials' secret values
    themselves: each entry is a member of the configured key list or came
    from the loaded checkpoint. *)
Theorem checkpoint_names
    (all_keys : list string) (env : nat -> key_behaviour)
    (file : option progress) (cp : progress) :
  cp ∈ writes (main all_keys env file) ->
  (forall k, is_Some (images_per_key cp !! k) ->
     is_Some (images_per_key (load_progress file) !! k) \/
     exists i, i < length all_keys /\ k = key_name i) /\
  (forall s, s ∈ exhausted_keys cp ->
     s ∈ exhausted_keys (load_progress file) \/ s ∈ all_keys).
Proof.
  intros Hcp. unfold main in Hcp.
  apply (for_keys_writes all_keys env (names_within all_keys (load_progress file)))
    in Hcp as [Hcp|Hcp].
  - inversion Hcp.
  - exact Hcp.
  - intros key p Hkey [Hm He]. split; [exact Hm|]. simpl.
    intros s [Hs|Hs]%elem_of_app; [by apply He|].
    apply list_elem_of_singleton in Hs as ->. by right.
  - intros i n p Hi [Hm He]. split; [|exact He]. simpl.
    intros k Hsome. destruct (decide (key_name i = k)) as [<-|Hne].
    + right. by exists i.
    + rewrite lookup_insert_ne in Hsome by done. by apply Hm.
  - split; intros; by left.
Qed.

(** [checkpoint_names] on the checkpoint that a single credential without
    quota left leaves behind. *)
Lemma checkpoint_names_witness :
  (forall k, is_Some (images_per_key leaked_checkpoint !! k) ->
     is_Some (images_per_key (load_progress None) !! k) \/
     exists i, i < length ["AIzaSy-secret-value"] /\ k = key_name i) /\
  (forall s, s ∈ exhausted_keys leaked_checkpoint ->
     s ∈ exhausted_keys (load_progress None) \/ s ∈ ["AIzaSy-secret-value"]).
Proof.
  apply (checkpoint_names ["AIzaSy-secret-value"] (fun _ => quota_after 0) None
           leaked_checkpoint).
  assert (writes (main ["AIzaSy-secret-value"] (fun _ => quota_after 0) None)
          = [leaked_checkpoint]) as -> by (vm_compute; reflexivity).
  by left.
Defined.

(** C4, as stated, fails: the checkpoint written for a credential that
    produced nothing carries the credential's secret value, which is not
    its identifier, in the exhausted list. *)
Lemma checkpoint_secret_counterexample :
  writes (main ["AIzaSy-secret-value"] (fun _ => quota_after 0) None)
    = [leaked_checkpoint] /\
  exhausted_keys leaked_checkpoint = ["AIzaSy-secret-value"] /\
  key_name 0 = "key_1" /\
  "AIzaSy-secret-value" <> key_name 0.
Proof.
  split; [vm_compute; reflexivity|]. split; [reflexivity|].
  split; [reflexivity|]. discriminate.
Qed.

(** ** The checkpoint: counts and total *)

Lemma sum_counts_empty : sum_counts ∅ = 0.
Proof. apply map_fold_empty. Qed.

Lemma sum_counts_insert_fresh (m : gmap string nat) k n :
  m !! k = None -> sum_counts (<[k := n]> m) = n + sum_counts m.
Proof.
  intros Hk. unfold sum_counts.
  rewrite map_fold_insert_L; [done | intros; lia | done].
Qed.

Lemma sum_counts_insert_present (m : gmap string nat) k n old :
  m !! k = Some old ->
  sum_counts (<[k := n]> m) + old = n + sum_counts m.
Proof.
  intros Hk.
  rewrite <- (insert_delete_id m k old Hk) at 2.
  rewrite <- (insert_delete_eq m k n).
  rewrite !sum_counts_insert_fresh by apply lookup_delete_eq. lia.
Qed.

(** X1. In a process that starts without a checkpoint, every checkpoint
    written has counts that add up to its total. *)
Lemma fresh_process_sum_invariant all_keys env cp :
  cp ∈ writes (main all_keys env None) ->
  sum_counts (images_per_key cp) = total_images_generated cp.
Proof.
  intros Hcp. unfold main, range in Hcp.
  apply (for_keys_writes_from all_keys env consistent_from) in Hcp
    as [Hcp|[b [Hsum _]]]; [inversion Hcp | done | | | |].
  - intros a p [Hsum Hfresh]. split; [done|]. intros j Hj. apply Hfresh. lia.
  - intros a key p Hc. exact Hc.
  - intros a n p [Hsum Hfresh]. split; simpl.
    + rewrite sum_counts_insert_fresh by (apply Hfresh; lia). lia.
    + intros j Hj. rewrite lookup_insert_ne; [apply Hfresh; lia|].
      intros Heq. apply key_name_inj in Heq. lia.
  - split; [apply sum_counts_empty | intros; apply lookup_empty].
Qed.

(** What storing the run of a credential that already has a count does to
    the sum invariant: the total grows by the new count while the stored
    count is replaced, so the sum falls short of the total by the old
    count. *)
Lemma store_run_overwrites i n p old :
  images_per_key p !! key_name i = Some old ->
  sum_counts (images_per_key p) = total_images_generated p ->
  sum_counts (images_per_key (store_run i n p)) + old
    = total_images_generated (store_run i n p).
Proof.
  intros Hold Hsum. simpl.
  pose proof (sum_counts_insert_present _ _ n _ Hold). lia.
Qed.

(** C2 fails on a restart. A first process runs the only credential, which
    yields 60 images; its checkpoint satisfies the invariant and keeps
    position 0 with the key not exhausted. A second process started from
    that checkpoint runs the same credential again for 70 images: the total
    becomes 130 while the only count is overwritten to 70. *)
Lemma resume_breaks_sum_invariant :
  exists cp1 cp2,
    last (writes (main ["AIza-first"] (fun _ => quota_after 60) None)) = Some cp1 /\
    sum_counts (images_per_key cp1) = 60 /\
    total_images_generated cp1 = 60 /\
    last (writes (main ["AIza-first"] (fun _ => quota_after 70) (Some cp1)))
      = Some cp2 /\
    sum_counts (images_per_key cp2) = 70 /\
    total_images_generated cp2 = 130.
Proof.
  eexists. eexists.
  split; [vm_compute; reflexivity|].
  split; [vm_compute; reflexivity|].
  split; [reflexivity|].
  split; [vm_compute; reflexivity|].
  split; [vm_compute; reflexivity | reflexivity].
Qed.

(** ** The events of a pass *)

Lemma events_except_clause i key st :
  events (except_clause i key st) = events st ++ [EvFatal i].
Proof. done. Qed.

(** The events a pass through the body adds: either no run, and then the
    total and the counts are as before, or one run, followed by a fatal
    error, by its checkpoint, or by both. *)
Lemma body_events all_keys env i st :
  let st' := state_of (body all_keys env i st) in
  exists new, events st' = events st ++ new /\
    ((total_images_generated (prog st') = total_images_generated (prog st) /\
      images_per_key (prog st') = images_per_key (prog st) /\
      (new = [] \/ new = [EvSkip i] \/ new = [EvFatal i] \/
       new = [EvProbe i false] \/ new = [EvProbe i true; EvInterrupted i] \/
       new = [EvProbe i true; EvFatal i])) \/
     exists n why,
       i < length all_keys /\
       total_images_generated (prog st')
         = total_images_generated (prog st) + n /\
       images_per_key (prog st')
         = <[key_name i := n]> (images_per_key (prog st)) /\
       (new = [EvProbe i true; EvRun i n why; EvFatal i] \/
        exists cp, current_key_index cp = i /\
          (new = [EvProbe i true; EvRun i n why; EvSave cp] \/
           new = [EvProbe i true; EvRun i n why; EvSave cp; EvFatal i]))).
Proof.
  intros st'. subst st'.
  destruct (body_cases all_keys env i st)
    as [|key|key Hk|key Hk|key Hk|key Hk
       |key n why Hk|key n why Hk|key n why Hk].
  - exists []. rewrite app_nil_r. split; [done|]. left. auto.
  - eexists. split; [reflexivity|]. left. auto.
  - eexists. split; [reflexivity|]. left. auto 10.
  - eexists. split; [reflexivity|]. left. auto 10.
  - exists [EvProbe i true; EvFatal i]. split.
    { rewrite events_except_clause. simpl. rewrite <- app_assoc. done. }
    left. auto 10.
  - exists [EvProbe i true; EvInterrupted i]. split.
    { simpl. rewrite <- app_assoc. done. }
    left. auto 10.
  - exists [EvProbe i true; EvRun i n why; EvSave (prog (ran i key n why st))].
    split; [apply write_checkpoint_ran|].
    right. exists n, why. split; [by eapply lookup_lt_Some|].
    change (prog (write_checkpoint i (ran i key n why st)))
      with (prog (ran i key n why st)).
    rewrite ran_prog_record. simpl. split; [done|]. split; [done|].
    right. eexists. split; [|left; reflexivity]. done.
  - exists [EvProbe i true; EvRun i n why; EvFatal i]. split.
    { rewrite events_except_clause, ran_events, <- app_assoc. done. }
    right. exists n, why. split; [by eapply lookup_lt_Some|].
    change (prog (except_clause i key (ran i key n why st)))
      with (append_key key (prog (ran i key n why st))).
    rewrite ran_prog_record. simpl. auto.
  - exists [EvProbe i true; EvRun i n why; EvSave (prog (ran i key n why st));
            EvFatal i].
    split.
    { rewrite events_except_clause.
      rewrite (proj1 (write_checkpoint_ran i key n why st)), <- app_assoc. done. }
    right. exists n, why. split; [by eapply lookup_lt_Some|].
    change (prog (except_clause i key (write_checkpoint i (ran i key n why st))))
      with (append_key key (prog (ran i key n why st))).
    rewrite ran_prog_record. simpl. split; [done|]. split; [done|].
    right. eexists. split; [|right; reflexivity]. done.
Qed.

(** The loop only adds events. *)
Lemma for_keys_events_prefix all_keys env positions st :
  events st `prefix_of` events (for_keys all_keys env positions st).
Proof.
  apply (for_keys_invariant all_keys env
           (fun st' => events st `prefix_of` events st')); [|done].
  intros i st' Hp.
  destruct (body_events all_keys env i st') as (new & -> & _).
  by apply prefix_app_r.
Qed.

(** ** Restart *)

Lemma range_cons i stop : i < stop -> range i stop = i :: range (S i) stop.
Proof.
  intros H. unfold range.
  replace (stop - i) with (S (stop - S i)) by lia. done.
Qed.

(** [main] started from a checkpoint that records position [i]: the loop
    enters at [i] and goes on from [i + 1]. *)
Lemma main_restart all_keys env cp :
  current_key_index cp < length all_keys ->
  main all_keys env (Some cp) =
  match body all_keys env (current_key_index cp) (restarted cp) with
  | Next st1 =>
      for_keys all_keys env
        (range (S (current_key_index cp)) (length all_keys)) st1
  | Halt st1 => st1
  end.
Proof. intros Hlt. unfold main. simpl. by rewrite range_cons. Qed.

(** C10, as the code has it. The checkpoint written after the run of the
    credential at position [i] records [current_key_index = i], not
    [i + 1], and holds the key in its exhausted list exactly when the run
    produced fewer than 50 images. A process started from that checkpoint
    enters its loop at position [i] itself. When the key is not in the
    checkpoint's exhausted list the credential is not skipped but taken
    through the [try] block again; it is run again when its client and its
    probe let it through, as for any credential, and not otherwise. *)
Theorem checkpoint_records_current_index
    (all_keys : list string) (env : nat -> key_behaviour)
    (i : nat) (key : string) (st : main_state)
    (g : gen_state) (why : exit_reason) :
  all_keys !! i = Some key ->
  key ∉ exhausted_keys (prog st) ->
  client_error (env i) = None ->
  probe_escape (env i) = None ->
  test_api_key (probe_error (env i)) = true ->
  run_error (env i) = None ->
  generate_with_key (calls (env i)) = Finished g why ->
  save_error (env i) = None ->
  exists cp,
    writes (state_of (body all_keys env i st)) = writes st ++ [cp] /\
    current_key_index cp = i /\
    images_per_key cp !! key_name i = Some (images_generated g) /\
    (key ∈ exhausted_keys cp <-> images_generated g < 50) /\
    forall env',
      main all_keys env' (Some cp)
        = match body all_keys env' i (restarted cp) with
          | Next st1 =>
              for_keys all_keys env' (range (S i) (length all_keys)) st1
          | Halt st1 => st1
          end /\
      (key ∉ exhausted_keys cp ->
         body all_keys env' i (restarted cp)
           = attempt_key env' i key (restarted cp)) /\
      (key ∉ exhausted_keys cp ->
       client_error (env' i) = None ->
       probe_escape (env' i) = None ->
       test_api_key (probe_error (env' i)) = true ->
       run_error (env' i) = None ->
       forall g' why',
         generate_with_key (calls (env' i)) = Finished g' why' ->
         [EvProbe i true; EvRun i (images_generated g') why']
           `prefix_of` events (main all_keys env' (Some cp))) /\
      (key ∉ exhausted_keys cp ->
       client_error (env' i) = None ->
       test_api_key (probe_error (env' i)) = false ->
       [EvProbe i false] `prefix_of` events (main all_keys env' (Some cp)) /\
       exhausted_keys cp ++ [key]
         `prefix_of` exhausted_keys (prog (main all_keys env' (Some cp)))).
Proof.
  intros Hk Hnot Hc Hpe Hp Hre Hg Hs.
  rewrite (body_after_run all_keys env i key st g why Hk Hnot Hc Hpe Hp Hre Hg).
  rewrite Hs.
  set (n := images_generated g).
  set (cp := prog (ran i key n why st)).
  assert (current_key_index cp = i) as Hidx by apply ran_index.
  assert (exhausted_keys cp
          = exhausted_keys (prog st) ++ (if n <? 50 then [key] else [])) as Hex
    by (subst cp; by rewrite ran_prog_record).
  exists cp. split.
  { destruct (listing_error (env i)); cbn [state_of];
      rewrite ?writes_except_clause; apply writes_write_checkpoint_ran. }
  split; [exact Hidx|]. split.
  { subst cp. rewrite ran_prog_record. simpl. apply lookup_insert_eq. }
  split.
  { rewrite Hex. destruct (Nat.ltb_spec n 50) as [Hlt|Hge].
    - split; [done|]. intros _. apply elem_of_app. right. by left.
    - rewrite app_nil_r. split; [intros Hin; by destruct Hnot | lia]. }
  intros env'.
  assert (main all_keys env' (Some cp)
          = match body all_keys env' i (restarted cp) with
            | Next st1 =>
                for_keys all_keys env' (range (S i) (length all_keys)) st1
            | Halt st1 => st1
            end) as Hmain.
  { rewrite main_restart; rewrite Hidx; [done|]. by eapply lookup_lt_Some. }
  split; [exact Hmain|]. split; [|split].
  - intros Hnot'. by apply body_attempt.
  - intros Hnot' Hc' Hpe' Hp' Hre' g' why' Hg'.
    rewrite Hmain.
    rewrite (body_after_run all_keys env' i key (restarted cp) g' why'
               Hk Hnot' Hc' Hpe' Hp' Hre' Hg').
    set (st1 := match save_error (env' i), listing_error (env' i) with
                | Some _, _ =>
                    except_clause i key
                      (ran i key (images_generated g') why' (restarted cp))
                | None, Some _ =>
                    except_clause i key
                      (write_checkpoint i
                         (ran i key (images_generated g') why' (restarted cp)))
                | None, None =>
                    write_checkpoint i
                      (ran i key (images_generated g') why' (restarted cp))
                end).
    assert ([EvProbe i true; EvRun i (images_generated g') why']
              `prefix_of` events st1) as Hpre.
    { subst st1.
      destruct (save_error (env' i)); [|destruct (listing_error (env' i))].
      - rewrite events_except_clause, ran_events. simpl.
        eexists. reflexivity.
      - rewrite events_except_clause.
        rewrite (proj1 (write_checkpoint_ran _ _ _ _ _)). simpl.
        eexists. reflexivity.
      - rewrite (proj1 (write_checkpoint_ran _ _ _ _ _)). simpl.
        eexists. reflexivity. }
    etransitivity; [exact Hpre | apply for_keys_events_prefix].
  - intros Hnot' Hc' Hp'. rewrite Hmain.
    rewrite (body_attempt all_keys env' i key (restarted cp) Hk Hnot').
    unfold attempt_key, try_block.
    rewrite Hc', (probe_escape_rejected _ Hp'), Hp'.
    split.
    + etransitivity; [|apply for_keys_events_prefix]. done.
    + apply (for_keys_writes all_keys env'
               (fun p => exhausted_keys cp ++ [key] `prefix_of` exhausted_keys p)).
      * intros k p _ Hpre. simpl. by apply prefix_app_r.
      * intros j m p _ Hpre. exact Hpre.
      * done.
Qed.

(** [checkpoint_records_current_index] on a single credential that
    produced 60 images. *)
Lemma checkpoint_records_current_index_witness :
  images_generated after_sixty_images = 60 /\
  exists cp,
    writes (state_of (body ["AIza-first"] (fun _ => quota_after 60) 0 fresh_state))
      = writes fresh_state ++ [cp] /\
    current_key_index cp = 0 /\
    images_per_key cp !! key_name 0 = Some (images_generated after_sixty_images) /\
    ("AIza-first" ∈ exhausted_keys cp <->
       images_generated after_sixty_images < 50) /\
    forall env',
      main ["AIza-first"] env' (Some cp)
        = match body ["AIza-first"] env' 0 (restarted cp) with
          | Next st1 =>
              for_keys ["AIza-first"] env' (range 1 (length ["AIza-first"])) st1
          | Halt st1 => st1
          end /\
      ("AIza-first" ∉ exhausted_keys cp ->
         body ["AIza-first"] env' 0 (restarted cp)
           = attempt_key env' 0 "AIza-first" (restarted cp)) /\
      ("AIza-first" ∉ exhausted_keys cp ->
       client_error (env' 0) = None ->
       probe_escape (env' 0) = None ->
       test_api_key (probe_error (env' 0)) = true ->
       run_error (env' 0) = None ->
       forall g' why',
         generate_with_key (calls (env' 0)) = Finished g' why' ->
         [EvProbe 0 true; EvRun 0 (images_generated g') why']
           `prefix_of` events (main ["AIza-first"] env' (Some cp))) /\
      ("AIza-first" ∉ exhausted_keys cp ->
       client_error (env' 0) = None ->
       test_api_key (probe_error (env' 0)) = false ->
       [EvProbe 0 false]
         `prefix_of` events (main ["AIza-first"] env' (Some cp)) /\
       exhausted_keys cp ++ ["AIza-first"]
         `prefix_of` exhausted_keys (prog (main ["AIza-first"] env' (Some cp)))).
Proof.
  split; [vm_compute; reflexivity|].
  apply (checkpoint_records_current_index ["AIza-first"]
           (fun _ => quota_after 60) 0 "AIza-first" fresh_state
           after_sixty_images ExitQuota).
  - reflexivity.
  - intros H. inversion H.
  - reflexivity.
  - reflexivity.
  - reflexivity.
  - reflexivity.
  - vm_compute. reflexivity.
  - reflexivity.
Defined.

(** C10, as stated, fails: the restart does not re-run the credential
    whenever its key is not in the exhausted list. The first process runs
    position 0 for 60 images and writes a checkpoint with index 0 and an
    empty exhausted list; a second process started from it, whose probe of
    the same credential is answered with a quota error, probes position 0
    and does not run it. *)
Lemma restart_probe_counterexample :
  exists cp,
    events (main ["AIza-first"] (fun _ => quota_after 60) None)
      = [EvProbe 0 true; EvRun 0 60 ExitQuota; EvSave cp] /\
    current_key_index cp = 0 /\
    exhausted_keys cp = [] /\
    events (main ["AIza-first"] (fun _ => depleted) (Some cp))
      = [EvProbe 0 false].
Proof.
  eexists. split; [vm_compute; reflexivity|].
  split; [reflexivity|]. split; [reflexivity|]. vm_compute. reflexivity.
Qed.

(** The restart of the scenario above, run to its end: position 0 is
    probed and run again. *)
Example restart_reruns_same_credential :
  exists cp,
    last (writes (main ["AIza-first"] (fun _ => quota_after 60) None)) = Some cp /\
    current_key_index cp = 0 /\
    events (main ["AIza-first"] (fun _ => quota_after 70) (Some cp)) =
      [EvProbe 0 true; EvRun 0 70 ExitQuota;
       EvSave {| current_key_index := 0; total_images_generated := 130;
                 images_per_key := {[ "key_1" := 70 ]};
                 exhausted_keys := [] |}].
Proof.
  eexists. split; [vm_compute; reflexivity|].
  split; [reflexivity | vm_compute; reflexivity].
Qed.

(** * Further properties of the production loop *)

(** A property of the locals that every iteration keeps holds when the
    loop is left or the observation stops. *)
Lemma run_loop_invariant (P : gen_state -> Prop) max outcomes :
  (forall st o, P st -> P (iteration st o).1) ->
  forall st, P st -> P (final_state (run_loop max st outcomes)).
Proof.
  intros Hstep. induction outcomes as [|o rest IH]; intros st HP; simpl.
  - by destruct (images_generated st <? max).
  - destruct (images_generated st <? max); [|done].
    pose proof (Hstep st o HP) as HP'.
    destruct (iteration st o) as [st' [why|]]; simpl in *; [done|].
    by apply IH.
Qed.

(** The parts of a response in which nothing raises: every image part
    counts, and [image_saved] is set by the first of them. *)
Lemma process_parts_clean parts : forall n b,
  (process_parts parts n b).2 = None ->
  process_parts parts n b = (n + images_in parts, b || (0 <? images_in parts), None).
Proof.
  induction parts as [|p parts IH]; intros n b H; simpl.
  - by rewrite Nat.add_0_r, orb_false_r.
  - destruct p; simpl in *; try (by apply IH); [|discriminate].
    rewrite (IH _ _ H). rewrite orb_true_r.
    replace (S n + images_in parts) with (n + S (images_in parts)) by lia.
    done.
Qed.

(** What one sleep-and-call does to the sleeps and to the base delay,
    whatever the call does. *)
Lemma iteration_sleeps st o :
  let d := sleep_time (progressive_sleep st) in
  sleep_time (iteration st o).1 = d /\
  (sleeps (iteration st o).1 = sleeps st ++ [Pace d] \/
   sleeps (iteration st o).1
     = sleeps st ++ [Pace d; Penalty (Nat.min 60 (d * 2))]).
Proof.
  intros d. pose proof (progressive_sleep_fields st) as (_ & _ & _ & Hs).
  destruct (raised o) as [e|] eqn:Hr.
  - destruct (iteration_raised st o e Hr) as (st1 & -> & Hd & Hc & Hs1).
    pose proof (on_exception_cases st1 e) as H.
    destruct (classify e).
    + rewrite H. simpl. split; [done | by left].
    + destruct (5 <=? S (consecutive_errors st1)); rewrite H; simpl.
      * split; [done | by left].
      * split; [done|]. right. rewrite Hs1, Hd, <- app_assoc. done.
  - destruct o as [e|parts]; [discriminate|]. simpl in Hr. unfold iteration.
    set (st2 := do_sleep (Pace (sleep_time (progressive_sleep st)))
                  (progressive_sleep st)).
    pose proof (process_parts_raised parts (images_generated st2) false) as Hp.
    rewrite Hr in Hp.
    destruct (process_parts parts (images_generated st2) false)
      as [[images saved] r].
    simpl in Hp. subst r.
    destruct saved; simpl; rewrite Hs; (split; [done | by left]).
Qed.

Lemma progressive_sleep_grows st :
  sleep_time st <= sleep_time (progressive_sleep st).
Proof. unfold progressive_sleep. destruct (_ && _); simpl; lia. Qed.

Lemma paces_app ds1 ds2 : paces (ds1 ++ ds2) = paces ds1 ++ paces ds2.
Proof.
  induction ds1 as [|d ds1 IH]; [done|].
  destruct d; simpl; by rewrite IH.
Qed.

(** X11. Every sleep of a run stays in its range, whatever the calls do: a
    base delay is never below the initial 8 seconds, and the extra delay
    after a failure lies between 16 and the cap of 60 seconds. *)
Theorem sleeps_in_bounds (max : nat) (outcomes : list call_outcome) :
  Forall delay_in_bounds
    (sleeps (final_state (generate_with_key_upto max outcomes))).
Proof.
  unfold generate_with_key_upto.
  apply (run_loop_invariant
           (fun st => 8 <= sleep_time st /\ Forall delay_in_bounds (sleeps st)));
    [|split; [simpl; lia | constructor]].
  intros st o [Hd Hs]. pose proof (progressive_sleep_grows st) as Hg.
  destruct (iteration_sleeps st o) as [Hd' [Hs'|Hs']]; rewrite Hd', Hs';
    (split; [lia|]); apply Forall_app; (split; [done|]).
  - constructor; [unfold delay_in_bounds; lia | constructor].
  - constructor; [unfold delay_in_bounds; lia|].
    constructor; [unfold delay_in_bounds; lia | constructor].
Qed.

(** X12. The base delay never goes down during a run: the delays slept before
    the successive calls form a non-decreasing sequence, failures and
    image-less responses included. *)
Theorem paces_never_decrease (max : nat) (outcomes : list call_outcome) :
  StronglySorted le
    (paces (sleeps (final_state (generate_with_key_upto max outcomes)))).
Proof.
  unfold generate_with_key_upto.
  apply (run_loop_invariant
           (fun st => Forall (fun s => s <= sleep_time st) (paces (sleeps st)) /\
                      StronglySorted le (paces (sleeps st))));
    [|split; constructor].
  intros st o [Hb Hs]. pose proof (progressive_sleep_grows st) as Hg.
  assert (paces (sleeps (iteration st o).1)
          = paces (sleeps st) ++ [sleep_time (progressive_sleep st)]) as Hp.
  { destruct (iteration_sleeps st o) as [_ [Hs'|Hs']]; rewrite Hs', paces_app; done. }
  destruct (iteration_sleeps st o) as [Hd' _]. rewrite Hp, Hd'. split.
  - apply Forall_app. split.
    + eapply Forall_impl; [exact Hb|]. simpl. intros; lia.
    + constructor; [lia | constructor].
  - apply StronglySorted_app_2; [|done|].
    2:{ constructor; constructor. }
    intros x1 x2 Hx1 Hx2. apply list_elem_of_singleton in Hx2 as ->.
    rewrite Forall_forall in Hb. specialize (Hb _ Hx1). lia.
Qed.

(** X10. How a run can end. When the loop is left through its condition the
    ceiling has been reached; the [break] of line 136 is taken with
    exactly five consecutive errors; and as long as the loop goes on there
    are at most four. *)
Theorem exit_conditions (max : nat) (outcomes : list call_outcome) :
  match generate_with_key_upto max outcomes with
  | Finished g ExitCeiling => max <= images_generated g
  | Finished g ExitFailures => consecutive_errors g = 5
  | Finished g ExitQuota => 1 <= consecutive_errors g <= 5
  | Interrupted g => images_generated g < max /\ consecutive_errors g <= 4
  end.
Proof.
  unfold generate_with_key_upto.
  assert (consecutive_errors gen_init <= 4) as H0 by (simpl; lia).
  revert H0. generalize gen_init.
  induction outcomes as [|o rest IH]; intros st Hc; simpl.
  - destruct (Nat.ltb_spec (images_generated st) max); [by split | lia].
  - destruct (Nat.ltb_spec (images_generated st) max) as [Hlt|Hge]; [|lia].
    destruct (raised o) as [e|] eqn:Hr.
    + destruct (iteration_raised st o e Hr) as (st1 & -> & _ & Hc1 & _).
      pose proof (on_exception_cases st1 e) as H.
      destruct (classify e).
      * rewrite H. simpl. lia.
      * destruct (Nat.leb_spec 5 (S (consecutive_errors st1))); rewrite H.
        -- simpl. lia.
        -- apply IH. simpl. lia.
    + destruct o as [e|parts]; [discriminate|]. simpl in Hr. unfold iteration.
      set (st2 := do_sleep (Pace (sleep_time (progressive_sleep st)))
                    (progressive_sleep st)).
      assert (consecutive_errors st2 = consecutive_errors st) as Hc2.
      { subst st2. simpl. apply progressive_sleep_fields. }
      clearbody st2.
      pose proof (process_parts_raised parts (images_generated st2) false) as Hp.
      rewrite Hr in Hp.
      destruct (process_parts parts (images_generated st2) false)
        as [[images saved] r].
      simpl in Hp. subst r.
      destruct saved; apply IH; simpl; lia.
Qed.

(** What a call that returns and is processed without an exception does
    to the locals. *)
Lemma iteration_clean_effect st o :
  raised o = None ->
  exists st',
    iteration st o = (st', None) /\
    images_generated st' = images_generated st + images_of o /\
    consecutive_errors st' =
      (if images_of o =? 0 then consecutive_errors st else 0) /\
    requests_made st' = S (requests_made st).
Proof.
  intros Hr. destruct o as [e|parts]; [discriminate|]. simpl in Hr.
  pose proof (progressive_sleep_fields st) as (Hi & Hc & Hq & _).
  unfold iteration.
  set (st2 := do_sleep (Pace (sleep_time (progressive_sleep st)))
                (progressive_sleep st)).
  assert (images_generated st2 = images_generated st) as Hi2 by (subst st2; done).
  assert (consecutive_errors st2 = consecutive_errors st) as Hc2
    by (subst st2; done).
  assert (requests_made st2 = requests_made st) as Hq2 by (subst st2; done).
  clearbody st2.
  pose proof (process_parts_raised parts (images_generated st2) false) as Hp.
  rewrite Hr in Hp. rewrite (process_parts_clean _ _ _ Hp).
  cbn [orb images_of].
  destruct (images_in parts) as [|k]; cbn [Nat.ltb Nat.leb Nat.eqb];
    eexists; (split; [reflexivity|]); cbn [images_generated consecutive_errors
      requests_made]; rewrite ?Hi2, ?Hc2, ?Hq2; done.
Qed.

(** X13. A response that is processed without an exception adds its images to
    the count; it resets the count of consecutive errors when it carries
    an image, and leaves it as it is when it carries none (line 120). *)
Theorem response_effect (st : gen_state) (o : call_outcome) :
  raised o = None ->
  (iteration st o).2 = None /\
  images_generated (iteration st o).1 = images_generated st + images_of o /\
  consecutive_errors (iteration st o).1 =
    (if images_of o =? 0 then consecutive_errors st else 0).
Proof.
  intros Hr. destruct (iteration_clean_effect st o Hr) as (st' & -> & Hi & Hc & _).
  done.
Qed.

(** [response_effect] on a response with only text, after three
    failures. *)
Lemma response_effect_witness :
  let st := {| images_generated := 7; consecutive_errors := 3; sleep_time := 8;
               requests_made := 7; sleeps := [] |} in
  let o := CallReturns [PartText "no image today"] in
  (iteration st o).2 = None /\
  images_generated (iteration st o).1 = 7 + 0 /\
  consecutive_errors (iteration st o).1 = 3.
Proof.
  exact (response_effect
           {| images_generated := 7; consecutive_errors := 3; sleep_time := 8;
              requests_made := 7; sleeps := [] |}
           (CallReturns [PartText "no image today"]) eq_refl).
Defined.

(** X14. Responses without an image do not interrupt a series of failures.
    In a script where no call yields an image and no failure is a quota
    error, the run is given up at the fifth failure, however many
    image-less responses lie in between, and returns 0. *)
Theorem failures_add_up_across_empty_responses
    (max : nat) (outcomes : list call_outcome) :
  0 < max ->
  Forall barren outcomes ->
  5 <= raises_in outcomes ->
  exists g,
    generate_with_key_upto max outcomes = Finished g ExitFailures /\
    images_generated g = 0 /\
    consecutive_errors g = 5.
Proof.
  intros Hmax Hall Hn. unfold generate_with_key_upto.
  assert (images_generated gen_init = 0) as Hi0 by done.
  assert (5 <= consecutive_errors gen_init + raises_in outcomes) as Hc0
    by (simpl; lia).
  assert (consecutive_errors gen_init <= 4) as Hle0 by (simpl; lia).
  revert Hi0 Hc0 Hle0. generalize gen_init. clear Hn.
  induction outcomes as [|o rest IH]; intros st Hi Hc Hle; simpl in *; [lia|].
  rewrite Hi. destruct (Nat.ltb_spec 0 max) as [_|]; [|lia].
  inversion Hall as [|? ? [Hno Hnq] Hrest]; subst.
  pose proof (iteration_images st o) as Him. rewrite Hno, Hi in Him.
  destruct (raised o) as [e|] eqn:Hr.
  - destruct (iteration_raised st o e Hr) as (st1 & Hit & _ & Hc1 & _).
    rewrite Hit in *. pose proof (on_exception_cases st1 e) as H.
    unfold classify in H. rewrite (Hnq e eq_refl) in H. rewrite Hc1 in H.
    destruct (Nat.leb_spec 5 (S (consecutive_errors st))) as [Hge|Hlt];
      rewrite H in *; simpl in Him.
    + eexists. split; [reflexivity|]. simpl. lia.
    + apply (IH Hrest); simpl; lia.
  - destruct (iteration_clean_effect st o Hr) as (st' & Hit & Hi' & Hc' & _).
    rewrite Hit. rewrite Hno in Hi', Hc'. simpl in Hc'.
    apply (IH Hrest); lia.
Qed.

(** [failures_add_up_across_empty_responses] on five time-outs with a
    text-only response after each of the first four. *)
Lemma failures_add_up_across_empty_responses_witness :
  exists g,
    generate_with_key_upto 500
      [CallRaises "timed out"; CallReturns [PartText "sorry"];
       CallRaises "timed out"; CallReturns [PartText "sorry"];
       CallRaises "timed out"; CallReturns [PartText "sorry"];
       CallRaises "timed out"; CallReturns [PartText "sorry"];
       CallRaises "timed out"]
      = Finished g ExitFailures /\
    images_generated g = 0 /\
    consecutive_errors g = 5.
Proof.
  apply failures_add_up_across_empty_responses.
  - lia.
  - repeat (apply Forall_cons_2;
            [split; [reflexivity | intros e H; vm_compute in H;
                     first [discriminate H
                           | injection H as <-; vm_compute; reflexivity]] |]).
    apply Forall_nil_2.
  - simpl. lia.
Defined.

(** X15. A run whose first five calls raise errors that are not quota errors
    is over after exactly these five calls, whatever would follow: it
    returns 0, having slept the base delay of 8 before each call and the
    penalty of 16 after each of the first four. *)
Theorem five_failures_end_run
    (max : nat) (es : list string) (rest : list call_outcome) :
  0 < max ->
  length es = 5 ->
  Forall (fun e => is_quota_error e = false) es ->
  generate_with_key_upto max (map CallRaises es ++ rest)
    = Finished {| images_generated := 0; consecutive_errors := 5;
                  sleep_time := 8; requests_made := 0;
                  sleeps := five_failures_sleeps |} ExitFailures.
Proof.
  intros Hmax Hlen Hall.
  destruct es as [|e1 [|e2 [|e3 [|e4 [|e5 [|? ?]]]]]]; try discriminate.
  repeat match goal with
         | H : Forall _ (_ :: _) |- _ => inversion H; clear H; subst
         end.
  destruct max as [|max]; [lia|].
  unfold generate_with_key_upto. simpl.
  unfold iteration, on_exception. simpl.
  repeat match goal with
         | H : is_quota_error _ = false |- _ => rewrite H; clear H; simpl
         end.
  reflexivity.
Qed.

(** [five_failures_end_run] on five connection errors followed by a
    response that is never requested. *)
Lemma five_failures_end_run_witness :
  generate_with_key_upto 500
    (map CallRaises (repeat "connection reset" 5) ++ [one_image])
    = Finished {| images_generated := 0; consecutive_errors := 5;
                  sleep_time := 8; requests_made := 0;
                  sleeps := five_failures_sleeps |} ExitFailures.
Proof.
  apply five_failures_end_run.
  - lia.
  - reflexivity.
  - repeat constructor.
Defined.

(** X16. A script of responses that each carry at least one image and raise
    nothing brings the run to its ceiling: with at least [max] of them the
    loop is left through its condition, after at most [max] requests. *)
Theorem images_reach_ceiling (max : nat) (outcomes : list call_outcome) :
  Forall (fun o => raised o = None /\ 1 <= images_of o) outcomes ->
  max <= length outcomes ->
  exists g,
    generate_with_key_upto max outcomes = Finished g ExitCeiling /\
    max <= images_generated g /\
    requests_made g <= max.
Proof.
  intros Hall Hlen. unfold generate_with_key_upto.
  assert (max <= images_generated gen_init + length outcomes) as H0
    by (simpl; lia).
  assert (requests_made gen_init <= images_generated gen_init) as H1 by done.
  assert (requests_made gen_init <= max) as H2 by (simpl; lia).
  revert H0 H1 H2. generalize gen_init. clear Hlen.
  induction outcomes as [|o rest IH]; intros st Hl Hq Hm; simpl in *.
  - destruct (Nat.ltb_spec (images_generated st) max); [lia|].
    eexists. split; [reflexivity|]. lia.
  - destruct (Nat.ltb_spec (images_generated st) max) as [Hlt|Hge].
    + inversion Hall as [|? ? [Hr Him] Hrest]; subst.
      destruct (iteration_clean_effect st o Hr) as (st' & -> & Hi' & _ & Hq').
      apply (IH Hrest); lia.
    + eexists. split; [reflexivity|]. lia.
Qed.

(** [images_reach_ceiling] on a ceiling of three and three single-image
    responses. *)
Lemma images_reach_ceiling_witness :
  exists g,
    generate_with_key_upto 3 (repeat one_image 3) = Finished g ExitCeiling /\
    3 <= images_generated g /\
    requests_made g <= 3.
Proof.
  apply images_reach_ceiling.
  - repeat (apply Forall_cons_2; [split; [reflexivity | simpl; lia] |]).
    apply Forall_nil_2.
  - simpl. lia.
Defined.

(** X17. The count returned exceeds the ceiling by less than the size of one
    response: when no response carries more than [w + 1] images, a run
    with ceiling [max] returns at most [max + w]. *)
Theorem ceiling_overshoot_bound
    (max w : nat) (outcomes : list call_outcome) :
  Forall (fun o => images_of o <= S w) outcomes ->
  images_generated (final_state (generate_with_key_upto max outcomes))
    <= max + w.
Proof.
  intros H. apply run_loop_ceiling; [done|]. simpl. lia.
Qed.

(** [ceiling_overshoot_bound] on responses of two images each. *)
Lemma ceiling_overshoot_bound_witness :
  images_generated
    (final_state (generate_with_key_upto 5
       (repeat (CallReturns [PartImage; PartImage]) 4)))
    <= 5 + 1.
Proof.
  apply ceiling_overshoot_bound.
  repeat (apply Forall_cons_2; [simpl; lia |]). apply Forall_nil_2.
Defined.

(** The [break] of line 131 on a single call that fails with a quota
    error. *)
Lemma exit_quota_sound_witness :
  exists o e,
    o ∈ [CallRaises "Quota exceeded for this project"] /\
    raised o = Some e /\ classify e = QuotaExhausted.
Proof.
  eapply (exit_quota_sound 500 [CallRaises "Quota exceeded for this project"]
            gen_init).
  vm_compute. reflexivity.
Defined.

(** * Further properties of the probe *)

(** X8. [test_api_key] is optimistic. It returns [False] only when the probe
    call raised and the lower-cased text of the error contains one of the
    five keywords; a probe that succeeds, or fails in any other way, lets
    the credential through. *)
Theorem probe_rejects_only_quota_errors (probe : option string) :
  test_api_key probe = false <->
  exists e kw, probe = Some e /\ kw ∈ quota_keywords /\
               Str.occurs_in kw (Str.lower e).
Proof.
  split.
  - destruct probe as [e|]; [|discriminate]. simpl.
    destruct (is_quota_error e) eqn:Hq; [|discriminate]. intros _.
    apply is_quota_error_iff in Hq as (kw & Hin & Hocc). by exists e, kw.
  - intros (e & kw & -> & Hin & Hocc). simpl.
    assert (is_quota_error e = true) as -> by (apply is_quota_error_iff; eauto).
    done.
Qed.

(** * Further properties of the rotation loop *)

Lemma writes_of_skips positions : writes_of (map EvSkip positions) = [].
Proof. induction positions as [|i rest IH]; [done | exact IH]. Qed.

Lemma run_total_app es1 es2 :
  run_total (es1 ++ es2) = run_total es1 + run_total es2.
Proof.
  induction es1 as [|e es1 IH]; [done|].
  destruct e; simpl; rewrite IH; lia.
Qed.

(** X2. Monotonic exhaustion. Within one process the exhausted list only
    grows at its end: the list loaded at start-up is a prefix of the list
    in memory when [main] ends and of the list in every checkpoint
    written, so no key is ever taken off it. *)
Theorem exhausted_keys_only_grow
    (all_keys : list string) (env : nat -> key_behaviour)
    (file : option progress) :
  exhausted_keys (load_progress file)
    `prefix_of` exhausted_keys (prog (main all_keys env file)) /\
  Forall (fun cp => exhausted_keys (load_progress file)
                      `prefix_of` exhausted_keys cp)
    (writes (main all_keys env file)).
Proof.
  unfold main.
  destruct (for_keys_writes all_keys env
              (fun p => exhausted_keys (load_progress file)
                          `prefix_of` exhausted_keys p))
    with (positions := range (current_key_index (load_progress file))
                         (length all_keys))
         (st := {| prog := load_progress file; events := [] |})
    as [Hfin Hw].
  - intros key p _ Hp. simpl. by apply prefix_app_r.
  - intros i n p _ Hp. exact Hp.
  - done.
  - split; [exact Hfin|]. apply Forall_forall. intros cp Hcp.
    destruct (Hw cp Hcp) as [Hin|Hin]; [inversion Hin | done].
Qed.

(** The events of a pass on one position do not touch another. *)
Lemma body_touches_other all_keys env j i st :
  j <> i ->
  exists new,
    events (state_of (body all_keys env j st)) = events st ++ new /\
    Forall (fun e => touches i e = false) new.
Proof.
  intros Hne. assert ((j =? i) = false) as Hji by (by apply Nat.eqb_neq).
  destruct (body_events all_keys env j st) as (new & Hev & Hnew).
  exists new. split; [exact Hev|].
  destruct Hnew as [(_ & _ & [->|[->|[->|[->|[->| ->]]]]])
                   |(n & why & _ & _ & _ & [->|(cp & Hidx & [->| ->])])];
    repeat (apply Forall_cons_2; [simpl; rewrite ?Hidx; by rewrite ?Hji|]);
    apply Forall_nil_2.
Qed.

(** X3. Skip-exhausted. A credential whose key is in the exhausted list of
    the loaded checkpoint is never worked on: no probe, no run, no fatal
    error and no checkpoint for its position appear among the events of
    [main]. *)
Theorem exhausted_key_never_attempted
    (all_keys : list string) (env : nat -> key_behaviour)
    (file : option progress) (i : nat) (key : string) :
  all_keys !! i = Some key ->
  key ∈ exhausted_keys (load_progress file) ->
  Forall (fun e => touches i e = false) (events (main all_keys env file)).
Proof.
  intros Hk Hin. unfold main.
  apply (for_keys_invariant all_keys env
           (fun st => key ∈ exhausted_keys (prog st) /\
                      Forall (fun e => touches i e = false) (events st)));
    [|split; [done | constructor]].
  intros j st [Hkey Hev]. split; [by apply body_keeps_exhausted|].
  destruct (decide (j = i)) as [->|Hne].
  - rewrite (body_skip all_keys env i key st Hk Hkey). simpl.
    apply Forall_app. split; [done|]. by repeat constructor.
  - destruct (body_touches_other all_keys env j i st Hne) as (new & -> & Hnew).
    apply Forall_app. by split.
Qed.

(** [exhausted_key_never_attempted] on a restart whose checkpoint lists
    the first of two keys as exhausted. *)
Lemma exhausted_key_never_attempted_witness :
  Forall (fun e => touches 0 e = false)
    (events (main ["AIza-dead"; "AIza-good"] dead_then_good
       (Some {| current_key_index := 0; total_images_generated := 0;
                images_per_key := ∅; exhausted_keys := ["AIza-dead"] |}))).
Proof.
  apply (exhausted_key_never_attempted ["AIza-dead"; "AIza-good"]
           dead_then_good _ 0 "AIza-dead").
  - reflexivity.
  - simpl. by left.
Defined.

Lemma for_keys_all_skipped all_keys env n : forall a st,
  (forall key, key ∈ all_keys -> key ∈ exhausted_keys (prog st)) ->
  a + n <= length all_keys ->
  for_keys all_keys env (seq a n) st
    = {| prog := prog st; events := events st ++ map EvSkip (seq a n) |}.
Proof.
  induction n as [|n IH]; intros a st Hall Hlen; simpl.
  - rewrite app_nil_r. by destruct st.
  - destruct (lookup_lt_is_Some_2 all_keys a) as [key Hk]; [lia|].
    rewrite (body_skip all_keys env a key st Hk)
      by (apply Hall; by eapply list_elem_of_lookup_2).
    rewrite IH; [|exact Hall|lia]. simpl. by rewrite <- app_assoc.
Qed.

(** X4. When every configured key is already in the exhausted list of the
    loaded checkpoint, [main] only skips: it probes nothing, runs nothing,
    writes no checkpoint, and leaves the progress as loaded. *)
Theorem all_exhausted_only_skips
    (all_keys : list string) (env : nat -> key_behaviour)
    (file : option progress) :
  (forall key, key ∈ all_keys -> key ∈ exhausted_keys (load_progress file)) ->
  main all_keys env file
    = {| prog := load_progress file;
         events := map EvSkip (range (current_key_index (load_progress file))
                                 (length all_keys)) |} /\
  writes (main all_keys env file) = [].
Proof.
  intros Hall.
  assert (main all_keys env file
          = {| prog := load_progress file;
               events := map EvSkip (range (current_key_index (load_progress file))
                                       (length all_keys)) |}) as Hmain.
  { unfold main, range.
    destruct (decide (current_key_index (load_progress file) <= length all_keys))
      as [Hle|Hgt].
    - rewrite for_keys_all_skipped; [done | exact Hall | simpl; lia].
    - replace (length all_keys - current_key_index (load_progress file))
        with 0 by lia. done. }
  split; [exact Hmain|]. rewrite Hmain. apply writes_of_skips.
Qed.

(** [all_exhausted_only_skips] on a checkpoint that lists both keys. *)
Lemma all_exhausted_only_skips_witness :
  let cp := {| current_key_index := 0; total_images_generated := 12;
               images_per_key := {[ "key_1" := 12 ]};
               exhausted_keys := ["AIza-first"; "AIza-second"] |} in
  main ["AIza-first"; "AIza-second"] fifty_then_none (Some cp)
    = {| prog := load_progress (Some cp);
         events := map EvSkip (range (current_key_index (load_progress (Some cp)))
                                 (length ["AIza-first"; "AIza-second"])) |} /\
  writes (main ["AIza-first"; "AIza-second"] fifty_then_none (Some cp)) = [].
Proof.
  apply (all_exhausted_only_skips ["AIza-first"; "AIza-second"] fifty_then_none).
  intros key Hkey. exact Hkey.
Defined.

Lemma for_keys_writes_positions all_keys env positions : forall st,
  exists ws,
    writes (for_keys all_keys env positions st) = writes st ++ ws /\
    length ws <= length positions /\
    Forall (fun cp => current_key_index cp ∈ positions /\
                      current_key_index cp < length all_keys) ws.
Proof.
  induction positions as [|i rest IH]; intros st; simpl.
  - exists []. rewrite app_nil_r. split; [done|]. split; [done | constructor].
  - assert (exists w,
              writes (state_of (body all_keys env i st)) = writes st ++ w /\
              length w <= 1 /\
              Forall (fun cp => current_key_index cp = i /\
                                current_key_index cp < length all_keys) w)
      as (w & Hw & Hlw & Hfw).
    { destruct (body_events all_keys env i st) as (new & Hev & Hnew).
      unfold writes. rewrite Hev, writes_of_app.
      destruct Hnew as [(_ & _ & [->|[->|[->|[->|[->| ->]]]]])
                       |(n & why & Hlt & _ & _ & [->|(cp & Hidx & [->| ->])])].
      1-7: exists []; split; [done|]; split; [simpl; lia | constructor].
      all: exists [cp]; split; [done|]; split; [simpl; lia|];
        apply Forall_cons_2; [|apply Forall_nil_2]; split; [done | lia]. }
    assert (Forall (fun cp => current_key_index cp ∈ i :: rest /\
                              current_key_index cp < length all_keys) w) as Hfw'.
    { eapply Forall_impl; [exact Hfw|]. simpl. intros cp [-> ?].
      split; [by left | done]. }
    destruct (body all_keys env i st) as [st'|st']; simpl in *.
    + destruct (IH st') as (ws & Hws & Hlws & Hfws).
      exists (w ++ ws). rewrite Hws, Hw, <- app_assoc. split; [done|].
      split; [rewrite length_app; lia|].
      apply Forall_app. split; [done|].
      eapply Forall_impl; [exact Hfws|]. simpl. intros cp [? ?].
      split; [by right | done].
    + exists w. split; [done|]. split; [lia | done].
Qed.

(** X5. Every checkpoint [main] writes records a valid position of the key
    list, not before the position the process started from, and at most
    one checkpoint is written per position scanned. *)
Theorem checkpoints_within_scan
    (all_keys : list string) (env : nat -> key_behaviour)
    (file : option progress) :
  Forall (fun cp => current_key_index (load_progress file)
                      <= current_key_index cp < length all_keys)
    (writes (main all_keys env file)) /\
  length (writes (main all_keys env file))
    <= length all_keys - current_key_index (load_progress file).
Proof.
  unfold main.
  destruct (for_keys_writes_positions all_keys env
              (range (current_key_index (load_progress file)) (length all_keys))
              {| prog := load_progress file; events := [] |})
    as (ws & Hws & Hlen & Hall).
  rewrite Hws. simpl. unfold range in *. rewrite length_seq in Hlen.
  split; [|exact Hlen].
  eapply Forall_impl; [exact Hall|]. simpl. intros cp [Hin Hlt].
  apply elem_of_seq in Hin. lia.
Qed.

(** X6. The count [main] stores for a run can be read back: for every run
    recorded among the events, the in-memory dictionary at the end holds
    that run's count under the identifier of its position. *)
Theorem run_counts_are_stored
    (all_keys : list string) (env : nat -> key_behaviour)
    (file : option progress) (i n : nat) (why : exit_reason) :
  EvRun i n why ∈ events (main all_keys env file) ->
  images_per_key (prog (main all_keys env file)) !! key_name i = Some n.
Proof.
  unfold main, range.
  generalize (length all_keys - current_key_index (load_progress file)).
  generalize (current_key_index (load_progress file)).
  set (stored := fun (a : nat) (st : main_state) =>
         forall i n why, EvRun i n why ∈ events st ->
           i < a /\ images_per_key (prog st) !! key_name i = Some n).
  assert (forall a st, stored a st ->
            stored (S a) (state_of (body all_keys env a st))) as Hstep.
  { intros a st Hst j m w Hin.
    destruct (body_events all_keys env a st) as (new & Hev & Hnew).
    rewrite Hev in Hin. apply elem_of_app in Hin as [Hin|Hin].
    - destruct (Hst j m w Hin) as [Hlt Hlk]. split; [lia|].
      destruct Hnew as [(_ & -> & _)|(n' & why' & _ & _ & -> & _)]; [done|].
      rewrite lookup_insert_ne; [done|].
      intros Heq. apply key_name_inj in Heq. lia.
    - destruct Hnew as [(_ & _ & [->|[->|[->|[->|[->| ->]]]]])
                       |(n' & why' & _ & _ & -> & [->|(cp & _ & [->| ->])])];
        repeat match goal with
               | H : _ ∈ [] |- _ => inversion H
               | H : _ ∈ _ :: _ |- _ => apply elem_of_cons in H as [H|H]
               end; try discriminate;
        injection Hin as -> -> ->; (split; [lia | apply lookup_insert_eq]). }
  assert (forall k a st, stored a st ->
            exists b, stored b (for_keys all_keys env (seq a k) st)) as Hall.
  { induction k as [|k IH]; intros a st Hst; simpl; [by exists a|].
    pose proof (Hstep a st Hst) as Hst'.
    destruct (body all_keys env a st) as [st'|st']; simpl in *;
      [by apply IH | by exists (S a)]. }
  intros a k Hin.
  destruct (Hall k a {| prog := load_progress file; events := [] |}) as [b Hb].
  { intros j m w H. inversion H. }
  by apply (Hb i n why).
Qed.

(** [run_counts_are_stored] on the two credentials that produce 50 and 0
    images. *)
Lemma run_counts_are_stored_witness :
  images_per_key
    (prog (main ["AIza-first"; "AIza-second"] fifty_then_none None))
    !! key_name 0 = Some 50.
Proof.
  apply (run_counts_are_stored ["AIza-first"; "AIza-second"] fifty_then_none
           None 0 50 ExitQuota).
  assert (events (main ["AIza-first"; "AIza-second"] fifty_then_none None)
          = [EvProbe 0 true; EvRun 0 50 ExitQuota;
             EvSave {| current_key_index := 0; total_images_generated := 50;
                       images_per_key := {[ "key_1" := 50 ]};
                       exhausted_keys := [] |};
             EvProbe 1 true; EvRun 1 0 ExitQuota;
             EvSave {| current_key_index := 1; total_images_generated := 50;
                       images_per_key := <[ "key_2" := 0 ]> {[ "key_1" := 50 ]};
                       exhausted_keys := ["AIza-second"] |}]) as ->
    by (vm_compute; reflexivity).
  right. by left.
Defined.

(** X7. The cumulative total is the loaded total plus the images of all the
    runs of this process: every run is added once, and nothing else
    changes the total. *)
Theorem total_accumulates_runs
    (all_keys : list string) (env : nat -> key_behaviour)
    (file : option progress) :
  total_images_generated (prog (main all_keys env file))
    = total_images_generated (load_progress file)
      + run_total (events (main all_keys env file)).
Proof.
  unfold main.
  apply (for_keys_invariant all_keys env
           (fun st => total_images_generated (prog st)
                      = total_images_generated (load_progress file)
                        + run_total (events st))); [|simpl; lia].
  intros i st Hst.
  destruct (body_events all_keys env i st) as (new & -> & Hnew).
  rewrite run_total_app.
  destruct Hnew as [(-> & _ & [->|[->|[->|[->|[->| ->]]]]])
                   |(n & why & _ & -> & _ & [->|(cp & _ & [->| ->])])];
    simpl; lia.
Qed.

(** [fresh_process_sum_invariant] on the second checkpoint of the two
    credentials that produce 50 and 0 images. *)
Lemma fresh_process_sum_invariant_witness :
  let cp := {| current_key_index := 1; total_images_generated := 50;
               images_per_key := <[ "key_2" := 0 ]> {[ "key_1" := 50 ]};
               exhausted_keys := ["AIza-second"] |} in
  cp ∈ writes (main ["AIza-first"; "AIza-second"] fifty_then_none None) /\
  sum_counts (images_per_key cp) = total_images_generated cp.
Proof.
  intros cp.
  assert (cp ∈ writes (main ["AIza-first"; "AIza-second"] fifty_then_none None))
    as Hin.
  { assert (writes (main ["AIza-first"; "AIza-second"] fifty_then_none None)
            = [{| current_key_index := 0; total_images_generated := 50;
                  images_per_key := {[ "key_1" := 50 ]};
                  exhausted_keys := [] |}; cp]) as ->
      by (vm_compute; reflexivity).
    right. by left. }
  split; [exact Hin|].
  exact (fresh_process_sum_invariant ["AIza-first"; "AIza-second"]
           fifty_then_none cp Hin).
Defined.

(** * [object_detection.py]: properties of the tally *)

Lemma tally_all_snoc files file :
  Detection.tally_all (files ++ [file])
    = Detection.tally_step (Detection.tally_all files) file.
Proof. unfold Detection.tally_all. by rewrite fold_left_app. Qed.

(** What one more file does to the counts read off [processed_files]. *)
Lemma tally_step_counts t name r :
  let t' := Detection.tally_step t (name, r) in
  length (Detection.processed_files t')
    = S (length (Detection.processed_files t)) /\
  Detection.successful_files (Detection.processed_files t')
    = Detection.successful_files (Detection.processed_files t)
      + (if Detection.status_is_success r then 1 else 0) /\
  Detection.failed_files (Detection.processed_files t')
    = Detection.failed_files (Detection.processed_files t)
      + (if Detection.status_is_success r then 0 else 1) /\
  Detection.files_with_detections (Detection.processed_files t')
    = Detection.files_with_detections (Detection.processed_files t)
      + (if 0 <? Detection.result_detections r then 1 else 0) /\
  sum_list_with Detection.detections (Detection.processed_files t')
    = sum_list_with Detection.detections (Detection.processed_files t)
      + Detection.result_detections r.
Proof.
  unfold Detection.successful_files, Detection.failed_files,
    Detection.files_with_detections.
  destruct r as [n|msg]; cbn [Detection.tally_step Detection.processed_files
    Detection.status_is_success Detection.result_detections];
    rewrite !filter_app, !length_app, sum_list_with_app.
  - rewrite (filter_cons_True (fun f => Detection.status f = true))
      by reflexivity.
    rewrite (filter_cons_False (fun f => Detection.status f = false))
      by (cbn; discriminate).
    destruct n as [|n].
    + rewrite (filter_cons_False (fun f => 0 < Detection.detections f))
        by (cbn; lia).
      rewrite !filter_nil. cbn. repeat split; lia.
    + rewrite (filter_cons_True (fun f => 0 < Detection.detections f))
        by (cbn; lia).
      rewrite !filter_nil. cbn. repeat split; lia.
  - rewrite (filter_cons_False (fun f => Detection.status f = true))
      by (cbn; discriminate).
    rewrite (filter_cons_True (fun f => Detection.status f = false))
      by reflexivity.
    rewrite (filter_cons_False (fun f => 0 < Detection.detections f))
      by (cbn; lia).
    rewrite !filter_nil. cbn. repeat split; lia.
Qed.

(** X18. Every image handed to the loop is accounted for exactly once: the
    summary lists one entry per image, each entry is either a success or an
    error, and the list of error messages has one message per failed
    image. *)
Theorem detection_tally_counts (files : list (string * Detection.result)) :
  let t := Detection.tally_all files in
  length (Detection.processed_files t) = length files /\
  Detection.successful_files (Detection.processed_files t)
    + Detection.failed_files (Detection.processed_files t) = length files /\
  length (Detection.errors t)
    = Detection.failed_files (Detection.processed_files t).
Proof.
  induction files as [|[name r] files IH] using rev_ind; [done|].
  simpl in *. rewrite tally_all_snoc, length_app. simpl.
  destruct IH as (IH1 & IH2 & IH3).
  destruct (tally_step_counts (Detection.tally_all files) name r)
    as (H1 & H2 & H3 & _).
  simpl in *. rewrite H1, H2, H3, IH1.
  split; [lia|].
  destruct r as [n|msg]; simpl; rewrite ?length_app; simpl; split; lia.
Qed.

(** X19. [total_detections] is the sum of the [detections] fields of the
    summary's entries: the entries of failed images carry 0 and are not
    added, so nothing is lost or counted twice. *)
Theorem detection_total_is_sum (files : list (string * Detection.result)) :
  let t := Detection.tally_all files in
  Detection.total_detections t
    = sum_list_with Detection.detections (Detection.processed_files t) /\
  Forall (fun f => Detection.status f = false -> Detection.detections f = 0)
    (Detection.processed_files t).
Proof.
  induction files as [|[name r] files IH] using rev_ind; cbv zeta in *.
  - split; [done | constructor].
  - rewrite tally_all_snoc. destruct IH as [IH1 IH2].
    pose proof (tally_step_counts (Detection.tally_all files) name r) as H.
    cbv zeta in H. destruct H as (_ & _ & _ & _ & H5).
    rewrite H5, <- IH1. split.
    + destruct r as [n|msg];
        cbn [Detection.tally_step Detection.total_detections
             Detection.result_detections]; lia.
    + destruct r as [n|msg];
        cbn [Detection.tally_step Detection.processed_files];
        apply Forall_app; (split; [exact IH2|]);
        (apply Forall_cons_2; [done | apply Forall_nil_2]).
Qed.

(** X20. The [files_with_detections] figure of the summary never exceeds the
    number of successfully processed images, nor the total number of
    detections. *)
Theorem files_with_detections_bounds (files : list (string * Detection.result)) :
  let t := Detection.tally_all files in
  Detection.files_with_detections (Detection.processed_files t)
    <= Detection.successful_files (Detection.processed_files t) /\
  Detection.files_with_detections (Detection.processed_files t)
    <= Detection.total_detections t.
Proof.
  induction files as [|[name r] files IH] using rev_ind; cbv zeta in *.
  - split; cbn; lia.
  - rewrite tally_all_snoc. destruct IH as [IH1 IH2].
    pose proof (tally_step_counts (Detection.tally_all files) name r) as H.
    cbv zeta in H. destruct H as (_ & H2 & _ & H4 & _).
    rewrite H2, H4.
    destruct r as [[|n]|msg];
      cbn [Detection.tally_step Detection.total_detections
           Detection.status_is_success Detection.result_detections Nat.ltb
           Nat.leb]; split; lia.
Qed.
